(** * logOS interpreter: the command parser, the arithmetic evaluator and
      the dispatcher of [logOS_Interpreter.py], embedded in Rocq.

    Python [str] values are modelled as [string]; a character is a code
    point below 256.  Python dictionaries are [gmap]s.  A Python exception
    is a value of an error type; a function that may raise returns a sum. *)

From Stdlib Require Import ZArith Lia Ascii DecimalString.
From stdpp Require Import base strings gmap list.

(** ** Characters and regular-expression classes *)

Definition LF : ascii := "010"%char.
Definition CR : ascii := "013"%char.

(** The class [\s] of Python's [re] on [str] patterns, restricted to code
    points below 256: the ASCII white space [\t\n\v\f\r], the separators
    0x1C..0x1F, the space, NEL (0x85) and the no-break space (0xA0). *)
Definition is_whitespace (c : ascii) : bool :=
  match c with
  | "009" | "010" | "011" | "012" | "013"
  | "028" | "029" | "030" | "031" | " " | "133" | "160" => true
  | _ => false
  end%char.

(** The complement of the class [[^\n\r]]. *)
Definition is_line_break (c : ascii) : bool :=
  match c with
  | "010" | "013" => true
  | _ => false
  end%char.

(** [span p s]: the longest prefix of [s] whose characters satisfy [p], and
    what follows it (a greedy [p*]). *)
Fixpoint span (p : ascii → bool) (s : string) : string * string :=
  match s with
  | EmptyString => (EmptyString, EmptyString)
  | String c s' =>
      if p c then let '(a, r) := span p s' in (String c a, r)
      else (EmptyString, s)
  end.

(** A greedy [p+]: fails on an empty match. *)
Definition regex_plus (p : ascii → bool) (s : string) : option (string * string) :=
  match span p s with
  | (EmptyString, _) => None
  | (a, r) => Some (a, r)
  end.

(** ** The command grammar

<<
program: line* command?
line: command_line | blank_line
blank_line: newline
command_line: command newline
command: command_name space command_args | command_name
command_name: /\S+/
command_args: /[^\n\r]+/
space: / /+
newline: NEWLINE
>>

    The grammar has four terminals. *)
Inductive GrammarTerminal :=
  | T_NAME      (* /\S+/ *)
  | T_ARGS      (* /[^\n\r]+/ *)
  | T_SPACE     (* / / *)
  | T_NEWLINE.  (* common.NEWLINE: (CR? LF)+ *)

Global Instance GrammarTerminal_eq_dec : EqDecision GrammarTerminal.
Proof. solve_decision. Defined.

(** [(\r?\n)+], greedy; the empty match is reported as an empty lexeme. *)
Fixpoint span_newlines (s : string) : string * string :=
  match s with
  | String c s' =>
      if bool_decide (c = LF) then
        let '(a, r) := span_newlines s' in (String c a, r)
      else if bool_decide (c = CR) then
        match s' with
        | String c' s'' =>
            if bool_decide (c' = LF) then
              let '(a, r) := span_newlines s'' in (String c (String c' a), r)
            else (EmptyString, s)
        | EmptyString => (EmptyString, s)
        end
      else (EmptyString, s)
  | EmptyString => (EmptyString, EmptyString)
  end.

(** What one terminal matches at the head of the text: the lexeme (never
    empty) and the rest of the text. *)
Definition match_terminal (t : GrammarTerminal) (s : string) : option (string * string) :=
  match t with
  | T_NAME => regex_plus (λ c, negb (is_whitespace c)) s
  | T_ARGS => regex_plus (λ c, negb (is_line_break c)) s
  | T_SPACE =>
      match s with
      | String " " r => Some (String " " EmptyString, r)
      | _ => None
      end
  | T_NEWLINE =>
      match span_newlines s with
      | (EmptyString, _) => None
      | (a, r) => Some (a, r)
      end
  end.

(** The contextual lexer of the LALR parser: in a parser state only the
    terminals that state can shift or reduce on are tried, in the order
    of the lexer's alternation; the first that matches gives the token. *)
Fixpoint lex (accepts : list GrammarTerminal) (s : string)
  : option (GrammarTerminal * string * string) :=
  match accepts with
  | [] => None
  | t :: ts =>
      match match_terminal t s with
      | Some (a, r) => Some (t, a, r)
      | None => lex ts s
      end
  end.

Definition Instruction : Type := string * string.

(** ** TreeParser: the callbacks run at each reduction *)
Module TreeParser.

(** [command]: [command_name, *rest = items]; the arguments are the last
    of the two further children when there are two. *)
Definition command (command_name : string) (rest : option string) : Instruction :=
  match rest with
  | Some command_args => (command_name, command_args)
  | None => (command_name, EmptyString)
  end.

(** [blank_line] yields [None]. *)
Definition blank_line : option Instruction := None.

(** [command_line] and [line] hand their first child on. *)
Definition command_line (i : Instruction) : option Instruction := Some i.

(** [program]: the items that are not [None]. *)
Definition program (items : list (option Instruction)) : list Instruction :=
  omap id items.

End TreeParser.

(** ** The parser

    The states of the LALR automaton, by the items they hold. *)
Inductive ParserState :=
  | AtLine                                  (* program: line* . command? *)
  | AfterName (name : string)               (* command: command_name . [space command_args] *)
  | AfterSpace (name : string)              (* space: / /+ . *)
  | AfterArgs (name : string) (args : string). (* command: command_name space command_args . *)

(** The terminals a state acts on, in the lexer's order: longest maximal
    width first, so [/[^\n\r]+/] is tried before [/ /]. *)
Definition accepts (st : ParserState) : list GrammarTerminal :=
  match st with
  | AtLine => [T_NEWLINE; T_NAME]
  | AfterName _ => [T_NEWLINE; T_SPACE]
  | AfterSpace _ => [T_ARGS; T_SPACE]
  | AfterArgs _ _ => [T_NEWLINE]
  end.

(** Whether the state acts on the end of the input. *)
Definition at_end (st : ParserState) (items : list (option Instruction))
  : option (list (option Instruction)) :=
  match st with
  | AtLine => Some items
  | AfterName n => Some (items ++ [Some (TreeParser.command n None)])
  | AfterSpace _ => None
  | AfterArgs n a => Some (items ++ [Some (TreeParser.command n (Some a))])
  end.

(** One token in one state: the next state and the children of [program]
    collected so far; [None] when the state has no action on the token. *)
Definition shift (st : ParserState) (items : list (option Instruction))
    (t : GrammarTerminal) (lexeme : string)
  : option (ParserState * list (option Instruction)) :=
  match st, t with
  | AtLine, T_NEWLINE => Some (AtLine, items ++ [TreeParser.blank_line])
  | AtLine, T_NAME => Some (AfterName lexeme, items)
  | AfterName n, T_NEWLINE =>
      Some (AtLine, items ++ [TreeParser.command_line (TreeParser.command n None)])
  | AfterName n, T_SPACE => Some (AfterSpace n, items)
  | AfterSpace n, T_ARGS => Some (AfterArgs n lexeme, items)
  | AfterSpace n, T_SPACE => Some (AfterSpace n, items)
  | AfterArgs n a, T_NEWLINE =>
      Some (AtLine, items ++ [TreeParser.command_line (TreeParser.command n (Some a))])
  | _, _ => None
  end.

(** The driver.  Every token consumes a character, so a fuel above the
    length of the text is never exhausted ([run_parser_fuel]). *)
Fixpoint run_parser (fuel : nat) (st : ParserState)
    (items : list (option Instruction)) (s : string)
  : option (list (option Instruction)) :=
  match fuel with
  | O => None
  | S fuel' =>
      match s with
      | EmptyString => at_end st items
      | _ =>
          match lex (accepts st) s with
          | Some (t, lexeme, rest) =>
              match shift st items t lexeme with
              | Some (st', items') => run_parser fuel' st' items' rest
              | None => None
              end
          | None => None
          end
      end
  end.

(** [parser.parse(text)]: [None] stands for Lark's [UnexpectedInput]. *)
Definition parser_parse (text : string) : option (list Instruction) :=
  TreeParser.program <$> run_parser (S (String.length text)) AtLine [] text.

(** [parse_logos] *)
Definition parse_logos (text : string) : option (list Instruction) :=
  if bool_decide (text = EmptyString) then Some []
  else parser_parse text.

(** ** Exceptions

    The exceptions the modelled code raises.  Lark's [UnexpectedCharacters]
    and [UnexpectedToken] are both [UnexpectedInput]. *)
Inductive exn :=
  | UnexpectedInput
  | AssertionError
  | KeyError (key : string)
  | ValueError (message : string)
  | RuntimeError (message : string)
  | MemoryError
  | StopIteration
  | OtherException (name : string).

Global Instance exn_eq_dec : EqDecision exn.
Proof. solve_decision. Defined.

(** What a call that may raise produces. *)
Inductive result (A : Type) :=
  | Ok (a : A)
  | Raise (e : exn).
Arguments Ok {A} a.
Arguments Raise {A} e.

Global Instance result_bind : MBind result := λ A B k r,
  match r with
  | Ok a => k a
  | Raise e => Raise e
  end.

(** ** Decimal numbers

    [decimal.Decimal]: sign, coefficient and exponent, or a special value.
    The calculator's context has [prec = MAX_PREC], [Emax = MAX_EMAX],
    [Emin = MIN_EMIN] and traps [FloatOperation] only: no result is
    rounded, and [DivisionByZero] and [InvalidOperation] are not trapped,
    so they give an infinity or a NaN instead of raising.  An operation
    whose exact result has no finite decimal expansion exhausts the
    memory ([MemoryError]).  The model assumes coefficients below
    [10 ^ MAX_PREC] and exponents within the context's range. *)
Inductive Decimal :=
  | Finite (sign : bool) (coefficient : N) (exponent : Z)
  | Infinity (sign : bool)
  | NaN.

Global Instance Decimal_eq_dec : EqDecision Decimal.
Proof. solve_decision. Defined.

Definition signed (sign : bool) (c : N) : Z :=
  if sign then (- Z.of_N c)%Z else Z.of_N c.

Definition decimal_add (x y : Decimal) : Decimal :=
  match x, y with
  | NaN, _ | _, NaN => NaN
  | Infinity s1, Infinity s2 => if Bool.eqb s1 s2 then Infinity s1 else NaN
  | Infinity s, _ | _, Infinity s => Infinity s
  | Finite s1 c1 e1, Finite s2 c2 e2 =>
      let e := Z.min e1 e2 in
      let v := (signed s1 c1 * 10 ^ (e1 - e) + signed s2 c2 * 10 ^ (e2 - e))%Z in
      if (v =? 0)%Z then Finite (s1 && s2) 0 e
      else Finite (v <? 0)%Z (Z.to_N (Z.abs v)) e
  end.

Definition decimal_negate (x : Decimal) : Decimal :=
  match x with
  | Finite s c e => Finite (negb s) c e
  | Infinity s => Infinity (negb s)
  | NaN => NaN
  end.

Definition decimal_sub (x y : Decimal) : Decimal :=
  decimal_add x (decimal_negate y).

Definition decimal_mul (x y : Decimal) : Decimal :=
  match x, y with
  | NaN, _ | _, NaN => NaN
  | Infinity s1, Infinity s2 => Infinity (xorb s1 s2)
  | Infinity s1, Finite s2 c _ | Finite s2 c _, Infinity s1 =>
      if (c =? 0)%N then NaN else Infinity (xorb s1 s2)
  | Finite s1 c1 e1, Finite s2 c2 e2 =>
      Finite (xorb s1 s2) (c1 * c2) (e1 + e2)
  end.

(** The least [k] from [k0] on, within [fuel] tries, for which [c2] divides
    [c1 * 10 ^ k]. *)
Fixpoint exact_shift (fuel : nat) (k0 : N) (c1 c2 : N) : option N :=
  match fuel with
  | O => None
  | S fuel' =>
      if ((c1 * 10 ^ k0) mod c2 =? 0)%N then Some k0
      else exact_shift fuel' (N.succ k0) c1 c2
  end.

(** The exponent of a zero quotient by an infinity: [Etiny] of the context,
    [MIN_EMIN - MAX_PREC + 1]. *)
Definition Etiny : Z := (-999999999999999999 - 999999999999999999 + 1)%Z.

(** [x / y].  A finite quotient is exact, with the exponent as close to
    the ideal [e1 - e2] as the coefficient allows; when a quotient of
    [c1 * 10 ^ k] by [c2] is exact for some [k], it is for one that is at
    most the binary logarithm of [c2]. *)
Definition decimal_truediv (x y : Decimal) : result Decimal :=
  match x, y with
  | NaN, _ | _, NaN => Ok NaN
  | Infinity _, Infinity _ => Ok NaN
  | Infinity s1, Finite s2 _ _ => Ok (Infinity (xorb s1 s2))
  | Finite s1 _ _, Infinity s2 => Ok (Finite (xorb s1 s2) 0 Etiny)
  | Finite s1 c1 e1, Finite s2 c2 e2 =>
      if (c2 =? 0)%N then
        if (c1 =? 0)%N then Ok NaN else Ok (Infinity (xorb s1 s2))
      else if (c1 =? 0)%N then Ok (Finite (xorb s1 s2) 0 (e1 - e2))
      else
        match exact_shift (S (N.to_nat (N.log2 c2))) 0 c1 c2 with
        | Some k => Ok (Finite (xorb s1 s2) (c1 * 10 ^ k / c2) (e1 - e2 - Z.of_N k))
        | None => Raise MemoryError
        end
  end.

(** The value of a finite decimal when it is a non-negative integer. *)
Definition as_natural (x : Decimal) : option N :=
  match x with
  | Finite false c e =>
      if (0 <=? e)%Z then Some (c * 10 ^ Z.to_N e)%N
      else if (c mod 10 ^ Z.to_N (- e) =? 0)%N then Some (c / 10 ^ Z.to_N (- e))%N
      else None
  | Finite true 0 _ => Some 0%N
  | _ => None
  end.

(** ** Binary floating point: [float(d)] and [str] of a float

    A finite float is [mantissa * 2 ^ exponent] with [mantissa < 2 ^ 53]
    and [exponent] from -1074 to 971, normalised: the mantissa is at
    least [2 ^ 52] unless the exponent is -1074. *)
Inductive PyFloat :=
  | FFinite (sign : bool) (mantissa : Z) (exponent : Z)
  | FInf (sign : bool)
  | FNaN.

Global Instance PyFloat_eq_dec : EqDecision PyFloat.
Proof. solve_decision. Defined.

(** [a / b] rounded to the nearest integer, ties to even. *)
Definition div_half_even (a b : Z) : Z :=
  let q := (a / b)%Z in
  let r := (a mod b)%Z in
  if (2 * r <? b)%Z then q
  else if (b <? 2 * r)%Z then (q + 1)%Z
  else if Z.even q then q else (q + 1)%Z.

(** The float nearest to the positive rational [num / den] (ties to
    even): mantissa and exponent, or [None] on overflow. *)
Definition nearest_float (num den : Z) : option (Z * Z) :=
  let e0 := (Z.log2 num - Z.log2 den - 52)%Z in
  let below :=
    if (0 <=? e0 + 52)%Z then (num <? den * 2 ^ (e0 + 52))%Z
    else (num * 2 ^ (- (e0 + 52)) <? den)%Z in
  let e1 := Z.max (-1074) (if below then e0 - 1 else e0)%Z in
  let m :=
    if (0 <=? e1)%Z then div_half_even num (den * 2 ^ e1)
    else div_half_even (num * 2 ^ (- e1)) den in
  let '(m, e) := if (m =? 2 ^ 53)%Z then (2 ^ 52, e1 + 1)%Z else (m, e1) in
  if (971 <? e)%Z then None else Some (m, e).

Definition float_of_ratio (sign : bool) (num den : Z) : PyFloat :=
  match nearest_float num den with
  | Some (m, e) => FFinite sign m e
  | None => FInf sign
  end.

(** [float(d)]: the conversion is correctly rounded. *)
Definition float_of_Decimal (d : Decimal) : PyFloat :=
  match d with
  | NaN => FNaN
  | Infinity s => FInf s
  | Finite s c e =>
      if (c =? 0)%N then FFinite s 0 (-1074)
      else if (0 <=? e)%Z then float_of_ratio s (Z.of_N c * 10 ^ e) 1
      else float_of_ratio s (Z.of_N c) (10 ^ (- e))
  end.

Definition string_of_N (n : N) : string := NilZero.string_of_uint (N.to_uint n).

(** [s.rstrip(c)] for a one-character set. *)
Fixpoint rstrip (c : ascii) (s : string) : string :=
  match s with
  | EmptyString => EmptyString
  | String a s' =>
      match rstrip c s' with
      | EmptyString => if bool_decide (a = c) then EmptyString else String a EmptyString
      | r => String a r
      end
  end.

Fixpoint zeros (n : nat) : string :=
  match n with
  | O => EmptyString
  | S n' => String "0" (zeros n')
  end.

(** Whether [num / den < 10 ^ k]. *)
Definition below_power_of_ten (num den k : Z) : bool :=
  if (0 <=? k)%Z then (num <? den * 10 ^ k)%Z else (num * 10 ^ (- k) <? den)%Z.

(** The least [k] from [k0] on with [num / den < 10 ^ k]. *)
Fixpoint decimal_point_from (fuel : nat) (k0 num den : Z) : Z :=
  match fuel with
  | O => k0
  | S fuel' =>
      if below_power_of_ten num den k0 then k0
      else decimal_point_from fuel' (k0 + 1)%Z num den
  end.

(** The position of the decimal point of [num / den]: the [k] with
    [10 ^ (k - 1) <= num / den < 10 ^ k], searched from a lower estimate
    got from the binary logarithms. *)
Definition decimal_point (num den : Z) : Z :=
  decimal_point_from 8 ((Z.log2 num - Z.log2 den - 1) * 30103 / 100000 - 1)%Z num den.

(** Whether the decimal [d * 10 ^ s] converts to the float [(m, e)]. *)
Definition converts_to (m e d s : Z) : bool :=
  bool_decide
    ((if (0 <=? s)%Z then nearest_float (d * 10 ^ s) 1 else nearest_float d (10 ^ (- s)))
     = Some (m, e)).

(** The shortest decimal that converts back to the float [num / den =
    m * 2 ^ e], the nearest one when two of that length do: its digits
    as an integer and the exponent of its last digit.  Seventeen digits
    always suffice. *)
Fixpoint shortest_decimal (fuel : nat) (nd k m e num den : Z) : Z * Z :=
  match fuel with
  | O => (0, 0)%Z
  | S fuel' =>
      let s := (k - nd)%Z in
      let '(a, b) :=
        if (0 <=? s)%Z then (num, den * 10 ^ s)%Z else (num * 10 ^ (- s), den)%Z in
      let lo := (a / b)%Z in
      let hi := (lo + 1)%Z in
      let r := (a mod b)%Z in
      match converts_to m e lo s, converts_to m e hi s with
      | true, true =>
          if (2 * r <? b)%Z then (lo, s)
          else if (b <? 2 * r)%Z then (hi, s)
          else if Z.even lo then (lo, s) else (hi, s)
      | true, false => (lo, s)
      | false, true => (hi, s)
      | false, false => shortest_decimal fuel' (nd + 1)%Z k m e num den
      end
  end.

(** [repr] of a positive finite float from its shortest digits [digits]
    and the position [decpt] of the decimal point: scientific notation
    when [decpt <= -4] or [decpt > 16], and [.0] added to an integer. *)
Definition format_repr (digits : string) (decpt : Z) : string :=
  let n := Z.of_nat (String.length digits) in
  if ((decpt <=? -4) || (16 <? decpt))%Z then
    let x := (decpt - 1)%Z in
    let xs := string_of_N (Z.to_N (Z.abs x)) in
    String.substring 0 1 digits
    +:+ (if (1 <? n)%Z then "." +:+ String.substring 1 (String.length digits - 1) digits
         else EmptyString)
    +:+ "e" +:+ (if (x <? 0)%Z then "-" else "+")
    +:+ (if (String.length xs <? 2)%nat then "0" +:+ xs else xs)
  else if (decpt <=? 0)%Z then
    "0." +:+ zeros (Z.to_nat (- decpt)) +:+ digits
  else if (n <=? decpt)%Z then
    digits +:+ zeros (Z.to_nat (decpt - n)) +:+ ".0"
  else
    String.substring 0 (Z.to_nat decpt) digits
    +:+ "." +:+ String.substring (Z.to_nat decpt) (Z.to_nat (n - decpt)) digits.

(** [str(x)] of a float. *)
Definition float_str (x : PyFloat) : string :=
  match x with
  | FNaN => "nan"
  | FInf s => if s then "-inf" else "inf"
  | FFinite s m e =>
      (if s then "-" else EmptyString) +:+
      (if (m =? 0)%Z then "0.0"
       else
         let '(num, den) := if (0 <=? e)%Z then (m * 2 ^ e, 1)%Z else (m, 2 ^ (- e))%Z in
         let k := decimal_point num den in
         let '(d, s) := shortest_decimal 17 1 k m e num den in
         let all_digits := string_of_N (Z.to_N d) in
         format_repr (rstrip "0" all_digits) (s + Z.of_nat (String.length all_digits)))
  end.


(** ** The arithmetic grammar

<<
primary_expression: secondary_expression (addition | subtraction)*
!addition: "+" secondary_expression
!subtraction: "-" secondary_expression
secondary_expression: tertiary_expression (multiplication | division)*
!multiplication: "*" tertiary_expression
!division: "/" tertiary_expression
tertiary_expression: quaternary_expression exponentiation*
!exponentiation: "^" quaternary_expression
quaternary_expression: number | bracketed_expression
bracketed_expression: "(" primary_expression ")"
number: SIGNED_NUMBER
%ignore WS
>>
*)
Inductive CalcToken :=
  | SIGNED_NUMBER (lexeme : string)
  | PLUS | MINUS | STAR | SLASH | CIRCUMFLEX
  | LPAR | RPAR.

(** The text of a token ([token.value]). *)
Definition token_value (token : CalcToken) : string :=
  match token with
  | SIGNED_NUMBER lexeme => lexeme
  | PLUS => "+" | MINUS => "-" | STAR => "*" | SLASH => "/" | CIRCUMFLEX => "^"
  | LPAR => "(" | RPAR => ")"
  end.

Definition is_digit (c : ascii) : bool :=
  match c with
  | "0" | "1" | "2" | "3" | "4" | "5" | "6" | "7" | "8" | "9" => true
  | _ => false
  end%char.

(** common.WS: [/[ \t\f\r\n]/+] *)
Definition is_WS (c : ascii) : bool :=
  match c with
  | " " | "009" | "012" | "013" | "010" => true
  | _ => false
  end%char.

(** An optional sign: [["+"|"-"]]. *)
Definition match_sign (s : string) : string * string :=
  match s with
  | String "+" r => ("+", r)
  | String "-" r => ("-", r)
  | _ => (EmptyString, s)
  end.

(** [_EXP: ("e"|"E") SIGNED_INT] *)
Definition match_EXP (s : string) : option (string * string) :=
  match s with
  | String c r =>
      if bool_decide (c = "e"%char) || bool_decide (c = "E"%char) then
        let '(sg, r1) := match_sign r in
        match span is_digit r1 with
        | (EmptyString, _) => None
        | (ds, r2) => Some (String c (sg +:+ ds), r2)
        end
      else None
  | EmptyString => None
  end.

(** [_EXP?] after a lexeme. *)
Definition with_optional_EXP (lexeme rest : string) : string * string :=
  match match_EXP rest with
  | Some (x, rest') => (lexeme +:+ x, rest')
  | None => (lexeme, rest)
  end.

(** [NUMBER: FLOAT | INT], [FLOAT: INT _EXP | DECIMAL _EXP?],
    [DECIMAL: INT "." INT? | "." INT], [INT: DIGIT+]. *)
Definition match_NUMBER (s : string) : option (string * string) :=
  match span is_digit s with
  | (EmptyString, _) =>
      match s with
      | String "." r1 =>
          match span is_digit r1 with
          | (EmptyString, _) => None
          | (f, r2) => Some (with_optional_EXP ("." +:+ f) r2)
          end
      | _ => None
      end
  | (i, r) =>
      match match_EXP r with
      | Some (x, r') => Some (i +:+ x, r')
      | None =>
          match r with
          | String "." r1 =>
              let '(f, r2) := span is_digit r1 in
              Some (with_optional_EXP (i +:+ "." +:+ f) r2)
          | _ => Some (i, r)
          end
      end
  end.

(** [SIGNED_NUMBER: ["+"|"-"] NUMBER] *)
Definition match_SIGNED_NUMBER (s : string) : option (string * string) :=
  let '(sg, r) := match_sign s in
  match match_NUMBER r with
  | Some (n, r') => Some (sg +:+ n, r')
  | None => None
  end.

(** The token stream of the contextual lexer.  The parser is in one of
    two lexing contexts: where an operand may start only [SIGNED_NUMBER]
    and [LPAR] are tried, elsewhere only the operators and [RPAR]; a
    number or [RPAR] leads to the second, every other token to the first.
    White space is skipped in both.  [None] ends the stream where no
    terminal of the context matches. *)
Fixpoint calc_tokens (fuel : nat) (operand : bool) (s : string)
  : list (option CalcToken) :=
  match fuel with
  | O => [None]
  | S fuel' =>
      match snd (span is_WS s) with
      | EmptyString => []
      | String c r as s' =>
          if operand then
            match match_SIGNED_NUMBER s' with
            | Some (lexeme, rest) =>
                Some (SIGNED_NUMBER lexeme) :: calc_tokens fuel' false rest
            | None =>
                if bool_decide (c = "("%char) then Some LPAR :: calc_tokens fuel' true r
                else [None]
            end
          else if bool_decide (c = "+"%char) then Some PLUS :: calc_tokens fuel' true r
          else if bool_decide (c = "-"%char) then Some MINUS :: calc_tokens fuel' true r
          else if bool_decide (c = "*"%char) then Some STAR :: calc_tokens fuel' true r
          else if bool_decide (c = "/"%char) then Some SLASH :: calc_tokens fuel' true r
          else if bool_decide (c = "^"%char) then Some CIRCUMFLEX :: calc_tokens fuel' true r
          else if bool_decide (c = ")"%char) then Some RPAR :: calc_tokens fuel' false r
          else [None]
      end
  end.

(** The digits of a numeral as a number. *)
Fixpoint digits_value (acc : N) (s : string) : N :=
  match s with
  | EmptyString => acc
  | String c s' =>
      digits_value (acc * 10 + (N_of_ascii c - N_of_ascii "0"))%N s'
  end.

(** [Decimal(number_string)] on a numeral
    [[sign] digits [. digits] [e [sign] digits]]: the coefficient is the
    digits without the point, the exponent counts the fraction digits
    off.  Anything else is not a numeral: an invalid operation, a NaN. *)
Definition Decimal_of_string (number_string : string) : Decimal :=
  let '(sg, r) := match_sign number_string in
  let '(i, r1) := span is_digit r in
  let '(f, r2) :=
    match r1 with
    | String "." r' => span is_digit r'
    | _ => (EmptyString, r1)
    end in
  let coefficient := digits_value 0 (i +:+ f) in
  let fraction := Z.of_nat (String.length f) in
  if bool_decide (i +:+ f = EmptyString) then NaN
  else
    match r2 with
    | EmptyString => Finite (bool_decide (sg = "-")) coefficient (- fraction)
    | String c r3 =>
        if bool_decide (c = "e"%char) || bool_decide (c = "E"%char) then
          let '(xs, r4) := match_sign r3 in
          match span is_digit r4 with
          | (EmptyString, _) => NaN
          | (x, EmptyString) =>
              let e := Z.of_N (digits_value 0 x) in
              Finite (bool_decide (sg = "-")) coefficient
                ((if bool_decide (xs = "-") then - e else e) - fraction)
          | _ => NaN
          end
        else NaN
    end.

Section Calculator.

(** [x ** y] outside the exact integer powers below (an exponent that is
    negative, not an integer or not finite, a base that is not finite):
    what the decimal library does there is taken as given. *)
Variable power_other : Decimal → Decimal → result Decimal.

(** [x ** y]: for a finite base and an exponent that is a non-negative
    integer [n], the exact power; [0 ** 0] is an invalid operation. *)
Definition decimal_pow (x y : Decimal) : result Decimal :=
  match x, y with
  | NaN, _ | _, NaN => Ok NaN
  | Finite s c e, _ =>
      match as_natural y with
      | Some n =>
          if (n =? 0)%N then
            if (c =? 0)%N then Ok NaN else Ok (Finite false 1 0)
          else if (c =? 0)%N then Ok (Finite (s && N.odd n) 0 0)
          else Ok (Finite (s && N.odd n) (c ^ n) (e * Z.of_N n))
      | None => power_other x y
      end
  | _, _ => power_other x y
  end.

(** [operations_funcs]: the operator functions by the operator's text. *)
Definition operations_funcs (op_type : string)
  : option (Decimal → Decimal → result Decimal) :=
  if bool_decide (op_type = "*") then Some (λ x y, Ok (decimal_mul x y))
  else if bool_decide (op_type = "/") then Some (λ x y, decimal_truediv x y)
  else if bool_decide (op_type = "+") then Some (λ x y, Ok (decimal_add x y))
  else if bool_decide (op_type = "-") then Some (λ x y, Ok (decimal_sub x y))
  else if bool_decide (op_type = "^") then Some (λ x y, decimal_pow x y)
  else None.

(** An operation as [to_operation] builds it: the operator's text and the
    operand. *)
Definition Operation : Type := string * Decimal.

(** [operate]: [accumulator, *operations = args], then each operation is
    applied to the accumulator in turn. *)
Fixpoint operate (accumulator : Decimal) (operations : list Operation)
  : result Decimal :=
  match operations with
  | [] => Ok accumulator
  | (op_type, op_arg) :: operations' =>
      match operations_funcs op_type with
      | Some op_func =>
          accumulator' ← op_func accumulator op_arg;
          operate accumulator' operations'
      | None => Raise (KeyError op_type)
      end
  end.

(** *** CalculationTreeParser and the LALR parser

    The parser's stack holds, for each bracket that is open, what the
    three tiers of the expression inside it have collected: the first
    operand and the operations reduced so far, and the operator that
    waits for its operand. *)
Record Tier := mkTier {
  collected : option (Decimal * list Operation);
  waiting : option string
}.

Record Frame := mkFrame {
  primary : Tier;
  secondary : Tier;
  tertiary : Tier
}.

Definition empty_tier : Tier := mkTier None None.
Definition empty_frame : Frame := mkFrame empty_tier empty_tier empty_tier.

(** A sub-expression is reduced: it is the tier's first operand, or
    [to_operation] pairs it with the operator that waited for it. *)
Definition add_child (t : Tier) (value : Decimal) : Tier :=
  match collected t, waiting t with
  | None, _ => mkTier (Some (value, [])) None
  | Some (accumulator, operations), Some op =>
      mkTier (Some (accumulator, operations ++ [(op, value)])) None
  | Some _, None => t
  end.

Definition set_waiting (t : Tier) (op : string) : Tier :=
  mkTier (collected t) (Some op).

(** The tier is complete: its callback [operate] runs on its children. *)
Definition reduce (t : Tier) : result Decimal :=
  match collected t with
  | Some (accumulator, operations) => operate accumulator operations
  | None => Raise UnexpectedInput
  end.

(** [number]: [Decimal(number_string)]; [quaternary_expression] is
    [operate] on the one child. *)
Definition number (number_string : string) : result Decimal :=
  operate (Decimal_of_string number_string) [].

Definition reduce_tertiary (f : Frame) : result Frame :=
  t ← reduce (tertiary f);
  Ok (mkFrame (primary f) (add_child (secondary f) t) empty_tier).

Definition reduce_secondary (f : Frame) : result Frame :=
  f' ← reduce_tertiary f;
  s ← reduce (secondary f');
  Ok (mkFrame (add_child (primary f') s) empty_tier empty_tier).

Definition reduce_primary (f : Frame) : result Decimal :=
  f' ← reduce_secondary f;
  reduce (primary f').

(** The parser on the token stream.  [operand] tells the context; a
    reduction waits for the token after it, so a callback runs only once
    that token has been read. *)
Fixpoint calc_parse (operand : bool) (f : Frame) (outer : list Frame)
    (tokens : list (option CalcToken)) : result Decimal :=
  match tokens with
  | [] =>
      if operand then Raise UnexpectedInput
      else
        value ← reduce_primary f;
        match outer with
        | [] => Ok value
        | _ :: _ => Raise UnexpectedInput
        end
  | None :: _ => Raise UnexpectedInput
  | Some token :: tokens' =>
      if operand then
        match token with
        | SIGNED_NUMBER lexeme =>
            value ← number lexeme;
            calc_parse false
              (mkFrame (primary f) (secondary f) (add_child (tertiary f) value))
              outer tokens'
        | LPAR => calc_parse true empty_frame (f :: outer) tokens'
        | _ => Raise UnexpectedInput
        end
      else
        match token with
        | CIRCUMFLEX =>
            calc_parse true
              (mkFrame (primary f) (secondary f)
                 (set_waiting (tertiary f) (token_value token)))
              outer tokens'
        | STAR | SLASH =>
            f' ← reduce_tertiary f;
            calc_parse true
              (mkFrame (primary f')
                 (set_waiting (secondary f') (token_value token))
                 (tertiary f'))
              outer tokens'
        | PLUS | MINUS =>
            f' ← reduce_secondary f;
            calc_parse true
              (mkFrame
                 (set_waiting (primary f') (token_value token))
                 (secondary f') (tertiary f'))
              outer tokens'
        | RPAR =>
            value ← reduce_primary f;
            match outer with
            | [] => Raise UnexpectedInput
            | g :: outer' =>
                value' ← operate value [];
                calc_parse false
                  (mkFrame (primary g) (secondary g) (add_child (tertiary g) value'))
                  outer' tokens'
            end
        | _ => Raise UnexpectedInput
        end
  end.

(** [calculation_parser.parse(string)] *)
Definition calculation_parser_parse (s : string) : result Decimal :=
  calc_parse true empty_frame [] (calc_tokens (S (String.length s)) true s).

(** [Calculator._calculate]: the answer is computed in the calculator's
    context, then shown as [str(float(answer)).rstrip("0").rstrip(".")]. *)
Definition _calculate (s : string) : result string :=
  decimal_answer ← calculation_parser_parse s;
  Ok (rstrip "." (rstrip "0" (float_str (float_of_Decimal decimal_answer)))).

End Calculator.

(** ** Programs and the runtime state *)

(** The program classes of the module, and the classes
    [create_note_program] makes. *)
Inductive ProgramClass :=
  | Desktop | Email | Editor | Calculator | Terminal | Files | Browser
  | Clock | Characters | Mines | Solitaire | Assembler
  | Note (name : string) (buffer : string).

Global Instance ProgramClass_eq_dec : EqDecision ProgramClass.
Proof. solve_decision. Defined.

(** [cls.name()]: the class name. *)
Definition name_of (cls : ProgramClass) : string :=
  match cls with
  | Desktop => "Desktop" | Email => "Email" | Editor => "Editor"
  | Calculator => "Calculator" | Terminal => "Terminal" | Files => "Files"
  | Browser => "Browser" | Clock => "Clock" | Characters => "Characters"
  | Mines => "Mines" | Solitaire => "Solitaire" | Assembler => "Assembler"
  | Note name _ => name
  end.

(** A program instance: its class and its buffer. *)
Record Program := mkProgram {
  program_class : ProgramClass;
  buffer : string
}.

Global Instance Program_eq_dec : EqDecision Program.
Proof. solve_decision. Defined.

(** [cls(initial_buffer)]: [BaseProgram.__init__] stores the buffer; the
    [altered_init] of a note class then stores the buffer the class was
    made with. *)
Definition instantiate (cls : ProgramClass) (initial_buffer : string) : Program :=
  match cls with
  | Note _ buffer => mkProgram cls buffer
  | _ => mkProgram cls initial_buffer
  end.

Record RuntimeState := mkRuntimeState {
  open_programs : gmap string Program;
  current_program_name : string;
  library : gmap string ProgramClass;
  clipboard : string
}.

Definition with_open_programs (state : RuntimeState) (m : gmap string Program) :=
  mkRuntimeState m (current_program_name state) (library state) (clipboard state).
Definition with_current_program_name (state : RuntimeState) (n : string) :=
  mkRuntimeState (open_programs state) n (library state) (clipboard state).
Definition with_clipboard (state : RuntimeState) (c : string) :=
  mkRuntimeState (open_programs state) (current_program_name state) (library state) c.

(** The property [current_program]: [open_programs[current_program_name]]. *)
Definition current_program (state : RuntimeState) : result Program :=
  match open_programs state !! current_program_name state with
  | Some p => Ok p
  | None => Raise (KeyError (current_program_name state))
  end.

(** The property [current_buffer] and its setter, which writes the buffer
    of the current program's instance. *)
Definition current_buffer (state : RuntimeState) : result string :=
  p ← current_program state; Ok (buffer p).

Definition set_current_buffer (state : RuntimeState) (new_buffer : string)
  : result RuntimeState :=
  p ← current_program state;
  Ok (with_open_programs state
        (<[current_program_name state := mkProgram (program_class p) new_buffer]>
           (open_programs state))).

Definition clear_buffer (state : RuntimeState) : result RuntimeState :=
  set_current_buffer state EmptyString.

(** A change of the remaining code, as a handler returns it. *)
Definition StreamTransform : Type := list Instruction → list Instruction.

(** What a handler call does: it returns [(changes, state)], or it raises
    and leaves the state object as it was then. *)
Inductive HandlerResult :=
  | Returns (remaining_code_changes : option StreamTransform) (state : RuntimeState)
  | Raises (e : exn) (state : RuntimeState).

Definition Handler : Type := string → RuntimeState → HandlerResult.

(** [functional_command]: the decorator for a command that only maps the
    buffer. *)
Definition functional_command (func : string → string → result string) : Handler :=
  λ args state,
    match current_buffer state with
    | Raise e => Raises e state
    | Ok old_buffer =>
        match func args old_buffer with
        | Raise e => Raises e state
        | Ok new_buffer =>
            match set_current_buffer state new_buffer with
            | Raise e => Raises e state
            | Ok state' => Returns None state'
            end
        end
    end.

Definition ends_with_space (s : string) : bool :=
  match String.length s with
  | O => false
  | S n => bool_decide (String.get n s = Some " "%char)
  end.

Fixpoint contains_space (s : string) : bool :=
  match s with
  | EmptyString => false
  | String c s' => bool_decide (c = " "%char) || contains_space s'
  end.

(** [s.split()]: the words between runs of white space. *)
Fixpoint split_words (word : string) (s : string) : list string :=
  match s with
  | EmptyString => if bool_decide (word = EmptyString) then [] else [word]
  | String c s' =>
      if is_whitespace c then
        if bool_decide (word = EmptyString) then split_words EmptyString s'
        else word :: split_words EmptyString s'
      else split_words (word +:+ String c EmptyString) s'
  end.

(** ** The keywords *)

Definition rem : Handler := functional_command (λ args buffer, Ok buffer).

Definition cut : Handler := λ args state,
  if negb (bool_decide (args = EmptyString) || bool_decide (args = "all"))
  then Raises AssertionError state
  else
    match current_buffer state with
    | Raise e => Raises e state
    | Ok b =>
        let state1 := with_clipboard state b in
        match clear_buffer state1 with
        | Raise e => Raises e state1
        | Ok state2 => Returns None state2
        end
    end.

Definition copy : Handler := λ args state,
  if negb (bool_decide (args = EmptyString) || bool_decide (args = "all"))
  then Raises AssertionError state
  else
    match current_buffer state with
    | Raise e => Raises e state
    | Ok b => Returns None (with_clipboard state b)
    end.

Definition paste : Handler := λ args state,
  if negb (bool_decide (args = EmptyString)) then Raises AssertionError state
  else
    match set_current_buffer state (clipboard state) with
    | Raise e => Raises e state
    | Ok state' => Returns None state'
    end.

Definition minimise : Handler := λ args state,
  Returns None (with_current_program_name state "Desktop").

Definition switch : Handler := λ args state,
  if contains_space args then Raises AssertionError state
  else Returns None (with_current_program_name state args).

Definition name : Handler := λ args state,
  if negb (bool_decide (args = EmptyString)) then Raises AssertionError state
  else
    match set_current_buffer state (current_program_name state) with
    | Raise e => Raises e state
    | Ok state' => Returns None state'
    end.

(** The text [execute] parses: a space is put after arguments that are
    not empty and do not end in one, then the clipboard follows. *)
Definition execute_text (args clipboard : string) : string :=
  (if negb (bool_decide (args = EmptyString)) && negb (ends_with_space args)
   then args +:+ " " else args) +:+ clipboard.

Definition execute : Handler := λ args state,
  match parse_logos (execute_text args (clipboard state)) with
  | None => Raises UnexpectedInput state
  | Some new_command_line =>
      Returns (Some (λ current_code, take 1 new_command_line ++ current_code)) state
  end.

Definition KEYWORDS : list (string * Handler) :=
  [("rem", rem); ("cut", cut); ("copy", copy);
   ("paste", paste); ("minimise", minimise);
   ("switch", switch); ("name", name); ("execute", execute)].

(** [d[key]] on a dictionary written as its list of items. *)
Fixpoint lookup_item {A} (key : string) (d : list (string * A)) : option A :=
  match d with
  | [] => None
  | (k, v) :: d' => if bool_decide (k = key) then Some v else lookup_item key d'
  end.

(** ** The programs' commands *)

(** [Desktop.get_command]: every name gets the handler that opens a
    program of that name. *)
Definition program_opener (command_name : string) : Handler := λ args state,
  if bool_decide (is_Some (open_programs state !! command_name)) then
    Raises (ValueError (command_name +:+ " already started!")) state
  else
    let new_program :=
      match library state !! command_name with
      | Some cls => instantiate cls args
      | None => instantiate (Note command_name args) args
      end in
    Returns None
      (with_current_program_name
         (with_open_programs state (<[command_name := new_program]> (open_programs state)))
         command_name).

(** [Terminal._run] *)
Definition _run : Handler := λ args state,
  if negb (bool_decide (args = EmptyString)) then Raises AssertionError state
  else
    match current_buffer state with
    | Raise e => Raises e state
    | Ok b =>
        match parse_logos b with
        | None => Raises UnexpectedInput state
        | Some new_instructions =>
            match clear_buffer state with
            | Raise e => Raises e state
            | Ok state' => Returns (Some (λ old_instructions, new_instructions)) state'
            end
        end
    end.

(** [Editor._append] *)
Definition _append : Handler := λ args state,
  if negb (bool_decide (args = "the clipboard") || bool_decide (args = "from clipboard"))
  then Raises AssertionError state
  else
    match current_buffer state with
    | Raise e => Raises e state
    | Ok b =>
        match set_current_buffer state (b +:+ clipboard state) with
        | Raise e => Raises e state
        | Ok state' => Returns None (with_clipboard state' EmptyString)
        end
    end.

(** [Assembler._compile]: the commands it collects are dropped. *)
Definition _compile : Handler := λ args state,
  match split_words EmptyString args with
  | [] => Raises (ValueError "not enough values to unpack (expected at least 1, got 0)") state
  | program_name :: other_args =>
      if negb (bool_decide (other_args = [])) then Raises AssertionError state
      else
        match current_buffer state with
        | Raise e => Raises e state
        | Ok b =>
            match parse_logos b with
            | None => Raises UnexpectedInput state
            | Some parsed => Returns None state
            end
        end
  end.

Section Runtime.

(** The power operation outside the exact integer powers. *)
Variable power_other : Decimal → Decimal → result Decimal.

(** The buffer functions of the programs that reach outside the
    interpreter (input and output, files, the network, the clock, random
    bits) or only edit text, by class and function name: from the
    arguments and the old buffer to the new buffer. *)
Variable external : ProgramClass → string → string → string → result string.

(** [Calculator._equals] and [Calculator._append_and_equals] *)
Definition _equals : Handler :=
  functional_command (λ args buffer,
    if bool_decide (args = EmptyString) then _calculate power_other buffer
    else Raise AssertionError).

Definition _append_and_equals (operator : string) : Handler :=
  functional_command (λ args buffer,
    _calculate power_other (buffer +:+ operator +:+ args)).

(** The [_commands] dictionary of each [LimitedCommandProgram]. *)
Definition _commands (cls : ProgramClass) : list (string * Handler) :=
  let f := λ func, functional_command (external cls func) in
  match cls with
  | Email => [("send", f "_send"); ("refresh", f "_refresh")]
  | Editor =>
      [("write", f "_write"); ("backspace", f "_backspace");
       ("replace", f "_replace"); ("count", f "_count");
       ("append", _append); ("tailor", f "_tailor")]
  | Calculator =>
      ("=", _equals)
      :: map (λ op, (op, _append_and_equals op)) ["*"; "/"; "+"; "-"; "^"]
  | Terminal => [("run", _run)]
  | Files =>
      [("create", f "_create"); ("delete", f "_delete");
       ("load", f "_save"); ("save", f "_save")]
  | Browser => [("navigate", f "_navigate")]
  | Clock => [("wait", f "_wait"); ("time", f "_time")]
  | Characters => [("Unicode", f "_unicode"); ("codepoints", f "_codepoints")]
  | Mines => [("generate", f "_generate")]
  | Solitaire =>
      [("sort", functional_command (λ _ _, Raise (OtherException "NotImplementedError")))]
  | Assembler => [("compile", _compile)]
  | Desktop | Note _ _ => []
  end.

(** [program.get_command(command_name)] *)
Definition get_command (p : Program) (command_name : string) : result Handler :=
  match program_class p with
  | Desktop => Ok (program_opener command_name)
  | Note name _ =>
      Raise (RuntimeError
               ("Trying to run command " +:+ command_name
                +:+ " on note program " +:+ name))
  | cls =>
      match lookup_item command_name (_commands cls) with
      | Some h => Ok h
      | None => Raise (KeyError command_name)
      end
  end.

(** ** The dispatcher *)

(** The body of the loop of [Runtime] for one command: the handler is a
    keyword's, or the current program's. *)
Definition dispatch (command_name command_args : string) (state : RuntimeState)
  : HandlerResult :=
  match lookup_item command_name KEYWORDS with
  | Some command => command command_args state
  | None =>
      match current_program state with
      | Raise e => Raises e state
      | Ok p =>
          match get_command p command_name with
          | Raise e => Raises e state
          | Ok command => command command_args state
          end
      end
  end.

End Runtime.

(** The [RuntimeError] the dispatcher raises from an exception: the
    message names the command, its arguments and the state, and the
    exception is its cause. *)
Record InterpreterError := mkInterpreterError {
  failing_command_name : string;
  failing_command_args : string;
  state_snapshot : RuntimeState;
  cause : exn
}.

(** What leaves [run_once] as an exception. *)
Inductive Raised :=
  | Fatal (e : InterpreterError)
  | Plain (e : exn).

(** The generator [Runtime(...)] makes: suspended at its [yield] with its
    state, or finished. *)
Inductive Generator :=
  | Suspended (state : RuntimeState)
  | Finished.

Definition STANDARD_LIBRARY : gmap string ProgramClass :=
  list_to_map
    (map (λ prog, (name_of prog, prog))
       [Email; Editor; Calculator; Terminal; Clock; Characters; Mines; Assembler;
        Files; Browser]).

Definition STANDARD_SANDBOX : gmap string ProgramClass :=
  list_to_map
    (map (λ prog, (name_of prog, prog))
       [Email; Editor; Calculator; Terminal; Clock; Characters; Mines; Assembler]).

(** The state [Runtime] starts from. *)
Definition initial_state (initial_program : ProgramClass)
    (library : gmap string ProgramClass) (initial_buffer : string) : RuntimeState :=
  mkRuntimeState
    {[ name_of initial_program := instantiate initial_program initial_buffer ]}
    (name_of initial_program)
    library
    EmptyString.

Record Interpreter := mkInterpreter {
  source : list Instruction;
  remaining_code : list Instruction;
  runtime : Generator;
  history : list Instruction;
  most_recent_state : option RuntimeState
}.

(** [Interpreter(code, ...)] on parsed code. *)
Definition Interpreter_init (code : list Instruction) (initial_program : ProgramClass)
    (library : gmap string ProgramClass) (initial_buffer : string) : Interpreter :=
  mkInterpreter code code
    (Suspended (initial_state initial_program library initial_buffer)) [] None.

(** What a call of a method of the interpreter leaves: the interpreter
    object after it, and the exception when it raised. *)
Inductive Outcome :=
  | Done (i : Interpreter)
  | Failed (e : Raised) (i : Interpreter).

Section Interpreter.

Variable power_other : Decimal → Decimal → result Decimal.
Variable external : ProgramClass → string → string → string → result string.

(** [self.runtime.send((command, args))]: the generator after it, and
    what it yields or raises. *)
Definition send (g : Generator) (command_name command_args : string)
  : Generator * (option StreamTransform * RuntimeState + Raised) :=
  match g with
  | Finished => (Finished, inr (Plain StopIteration))
  | Suspended state =>
      match dispatch power_other external command_name command_args state with
      | Returns remaining_code_changes state' =>
          (Suspended state', inl (remaining_code_changes, state'))
      | Raises e state' =>
          (Finished, inr (Fatal (mkInterpreterError command_name command_args state' e)))
      end
  end.

(** The command [run_once] runs and the code that remains beside it:
    the command given, or the head of the remaining code, removed from
    it ([(command, args), *self.remaining_code = self.remaining_code]). *)
Definition fetch (command_and_args : option Instruction) (i : Interpreter)
  : result (Instruction * list Instruction) :=
  match command_and_args with
  | Some c => Ok (c, remaining_code i)
  | None =>
      match remaining_code i with
      | c :: rest => Ok (c, rest)
      | [] => Raise (ValueError "not enough values to unpack (expected at least 1, got 0)")
      end
  end.

(** [run_once]: the command is put on the history and sent to the
    runtime; the change the runtime yields is applied to the remaining
    code. *)
Definition run_once (command_and_args : option Instruction) (i : Interpreter) : Outcome :=
  match fetch command_and_args i with
  | Raise e => Failed (Plain e) i
  | Ok ((command, args), rest) =>
      let history' := history i ++ [(command, args)] in
      match send (runtime i) command args with
      | (g, inl (remaining_code_changes, state')) =>
          Done (mkInterpreter (source i)
                  (match remaining_code_changes with
                   | Some change => change rest
                   | None => rest
                   end)
                  g history' (Some state'))
      | (g, inr e) =>
          Failed e (mkInterpreter (source i) rest g history' (most_recent_state i))
      end
  end.

(** [run_all]: [run_once] while code remains; the loop need not end, so it
    is cut at [fuel] rounds ([None]). *)
Fixpoint run_all (fuel : nat) (i : Interpreter) : option Outcome :=
  match remaining_code i with
  | [] => Some (Done i)
  | _ :: _ =>
      match fuel with
      | O => None
      | S fuel' =>
          match run_once None i with
          | Done i' => run_all fuel' i'
          | Failed e i' => Some (Failed e i')
          end
      end
  end.

(** The states the runtime goes through from [init]: each comes from the
    one before by a command that returns, and that [allowed] lets through. *)
Inductive reachable (allowed : string → string → RuntimeState → Prop)
    (init : RuntimeState) : RuntimeState → Prop :=
  | reachable_init : reachable allowed init init
  | reachable_step state command_name command_args changes state' :
      reachable allowed init state →
      allowed command_name command_args state →
      dispatch power_other external command_name command_args state
        = Returns changes state' →
      reachable allowed init state'.

End Interpreter.

(** Instances of the two parameters, for closed examples: a power
    operation and external functions that always raise. *)
Definition no_power : Decimal → Decimal → result Decimal :=
  λ _ _, Raise (OtherException "power").
Definition no_external : ProgramClass → string → string → string → result string :=
  λ _ _ _ _, Raise (OtherException "external").


(** The current program is open. *)
Definition current_program_open (state : RuntimeState) : Prop :=
  is_Some (open_programs state !! current_program_name state).

(** A handler that raises leaves the state as it was. *)
Definition atomic (h : Handler) : Prop :=
  ∀ args state e state', h args state = Raises e state' → state' = state.

(** A handler that returns closes no program, and leaves the current
    program open when it was. *)
Definition keeps_open (h : Handler) : Prop :=
  ∀ args state changes state', h args state = Returns changes state' →
    (∀ k, is_Some (open_programs state !! k) → is_Some (open_programs state' !! k))
    ∧ (current_program_open state → current_program_open state').

(** [switch] names a program that is open. *)
Definition switch_to_open (command_name command_args : string) (state : RuntimeState)
  : Prop :=
  command_name = "switch" → is_Some (open_programs state !! command_args).

(** ** Serialisation of instructions, for the round trip *)

Definition nl : string := String LF EmptyString.

(** One instruction as a line: the name, then a space and the arguments
    when there are arguments. *)
Definition serialize_instruction (i : Instruction) : string :=
  match i with
  | (name, EmptyString) => name
  | (name, args) => name +:+ " " +:+ args
  end.

(** The lines, joined by line feeds. *)
Fixpoint serialize (l : list Instruction) : string :=
  match l with
  | [] => EmptyString
  | [i] => serialize_instruction i
  | i :: l' => serialize_instruction i +:+ nl +:+ serialize l'
  end.

Fixpoint string_forall (p : ascii → bool) (s : string) : bool :=
  match s with
  | EmptyString => true
  | String c s' => p c && string_forall p s'
  end.

(** An instruction as the parser makes them: the name is not empty and
    has no white space, the arguments have no line break. *)
Definition valid_instruction (i : Instruction) : bool :=
  negb (bool_decide (i.1 = EmptyString))
  && string_forall (λ c, negb (is_whitespace c)) i.1
  && string_forall (λ c, negb (is_line_break c)) i.2.

(** The parser with the fuel its text needs. *)
Definition parse_from (st : ParserState) (items : list (option Instruction))
    (s : string) : option (list (option Instruction)) :=
  run_parser (S (String.length s)) st items s.

(** What follows a greedy match does not go on matching. *)
Definition stops (p : ascii → bool) (t : string) : bool :=
  match t with
  | EmptyString => true
  | String c _ => negb (p c)
  end.

(** The parser state holds valid parts of an instruction, and the items
    collected are valid. *)
Definition item_valid (o : option Instruction) : Prop :=
  match o with
  | Some i => valid_instruction i = true
  | None => True
  end.

Definition state_valid (st : ParserState) : Prop :=
  match st with
  | AtLine => True
  | AfterName n | AfterSpace n => valid_instruction (n, EmptyString) = true
  | AfterArgs n a => valid_instruction (n, a) = true
  end.

(** The text after a line: nothing, or a line feed and then nothing or a
    character that is not white space. *)
Inductive line_end : string → option string → Prop :=
  | line_end_eof : line_end EmptyString None
  | line_end_nl t :
      stops is_whitespace t = true → line_end (nl +:+ t) (Some t).

(** ** The texts of the command grammar *)

(** A run of line ends, [(\r?\n)*]. *)
Definition is_newlines (s : string) : bool :=
  match span_newlines s with
  | (_, EmptyString) => true
  | _ => false
  end.

(** Whether a line end is at the head of the text. *)
Definition starts_line_end (t : string) : bool :=
  match match_terminal T_NEWLINE t with
  | Some _ => true
  | None => false
  end.

(** A line: a valid instruction and the line ends after it, at least
    one. *)
Definition valid_line (line : Instruction * string) : bool :=
  valid_instruction line.1 && is_newlines line.2
  && negb (bool_decide (line.2 = EmptyString)).

Fixpoint join_lines (lines : list (Instruction * string)) : string :=
  match lines with
  | [] => EmptyString
  | (i, line_ends) :: lines' =>
      serialize_instruction i +:+ line_ends +:+ join_lines lines'
  end.

(** [program: line* command?] as text: blank lines, the lines, and a
    last command with no line end. *)
Definition program_text (blank_lines : string) (lines : list (Instruction * string))
    (last : option Instruction) : string :=
  blank_lines +:+ join_lines lines +:+ from_option serialize_instruction EmptyString last.

(** The parser state after a command, and the item a state gives at a
    line end. *)
Definition after_command (i : Instruction) : ParserState :=
  match i with
  | (n, EmptyString) => AfterName n
  | (n, a) => AfterArgs n a
  end.

Definition pending (st : ParserState) : option Instruction :=
  match st with
  | AtLine | AfterSpace _ => None
  | AfterName n => Some (n, EmptyString)
  | AfterArgs n a => Some (n, a)
  end.

(** ** The Editor's text functions

    The [str] methods they use, on code points below 256. *)

Definition quotemark : ascii := "034"%char.
Definition quote : string := String quotemark EmptyString.

(** [s.lstrip(chars)] and [s.rstrip(chars)], the set of characters given
    as a predicate. *)
Definition lstrip_by (p : ascii → bool) (s : string) : string := (span p s).2.

Fixpoint rstrip_by (p : ascii → bool) (s : string) : string :=
  match s with
  | EmptyString => EmptyString
  | String a s' =>
      match rstrip_by p s' with
      | EmptyString => if p a then EmptyString else String a EmptyString
      | r => String a r
      end
  end.

(** [s.strip()] takes the white space off both ends, [s.strip(chars)]
    the characters of [chars]. *)
Definition strip_by (p : ascii → bool) (s : string) : string :=
  rstrip_by p (lstrip_by p s).

Definition strip (s : string) : string := strip_by is_whitespace s.

Definition startswith (s prefix : string) : bool := String.prefix prefix s.

Definition endswith (s suffix : string) : bool :=
  let n := String.length s in
  let m := String.length suffix in
  (m <=? n)%nat && bool_decide (String.substring (n - m) m s = suffix).

(** [s[1:-1]] and [s[:-1]] *)
Definition slice_1_m1 (s : string) : string := String.substring 1 (String.length s - 2) s.
Definition slice_m1 (s : string) : string := String.substring 0 (String.length s - 1) s.

(** [s.split(sep)]: the text is cut at each occurrence of [sep], found
    from the left, those inside an occurrence already found not counted;
    an empty separator raises.  [skip] counts the characters left of the
    occurrence being passed over, [part] is the part being read. *)
Fixpoint split_from (sep : string) (skip : nat) (part s : string) : list string :=
  match s with
  | EmptyString => [part]
  | String c s' =>
      match skip with
      | S skip' => split_from sep skip' part s'
      | O =>
          if String.prefix sep s
          then part :: split_from sep (String.length sep - 1) EmptyString s'
          else split_from sep 0 (part +:+ String c EmptyString) s'
      end
  end.

Definition str_split (s sep : string) : result (list string) :=
  if bool_decide (sep = EmptyString) then Raise (ValueError "empty separator")
  else Ok (split_from sep 0 EmptyString s).

(** [s.count(sub)]: the occurrences of [sub] that do not overlap, from
    the left; the empty text is counted between all characters and at
    both ends. *)
Fixpoint count_from (sub : string) (skip : nat) (s : string) : nat :=
  match s with
  | EmptyString => 0
  | String c s' =>
      match skip with
      | S skip' => count_from sub skip' s'
      | O =>
          if String.prefix sub s
          then S (count_from sub (String.length sub - 1) s')
          else count_from sub 0 s'
      end
  end.

Definition str_count (s sub : string) : nat :=
  if bool_decide (sub = EmptyString) then S (String.length s)
  else count_from sub 0 s.

(** [list(s)] *)
Fixpoint characters_of (s : string) : list string :=
  match s with
  | EmptyString => []
  | String c s' => String c EmptyString :: characters_of s'
  end.

(** The digits of [int(s)]: decimal digits, with single underscores
    between them. *)
Fixpoint int_digits (acc : N) (after_digit : bool) (s : string) : option N :=
  match s with
  | EmptyString => if after_digit then Some acc else None
  | String c s' =>
      if is_digit c
      then int_digits (acc * 10 + (N_of_ascii c - N_of_ascii "0"))%N true s'
      else if bool_decide (c = "_"%char) && after_digit
           then int_digits acc false s'
           else None
  end.

(** The white space [int] takes off: of the class [\s], 0x1C..0x1F are
    not in it. *)
Definition is_int_space (c : ascii) : bool :=
  match c with
  | "009" | "010" | "011" | "012" | "013" | " " | "133" | "160" => true
  | _ => false
  end%char.

(** [int(s)] in base ten: white space at both ends, a sign, the digits.
    (The message of the [ValueError] goes on with the text refused.) *)
Definition int (s : string) : result Z :=
  let '(sign, digits) := match_sign (strip_by is_int_space s) in
  match int_digits 0 false digits with
  | Some n => Ok (if bool_decide (sign = "-") then - Z.of_N n else Z.of_N n)%Z
  | None => Raise (ValueError "invalid literal for int() with base 10")
  end.

(** [str(n)] of an integer. *)
Definition string_of_Z (n : Z) : string :=
  match n with
  | Zneg p => "-" +:+ string_of_N (Npos p)
  | _ => string_of_N (Z.to_N n)
  end.

(** [Editor.units]: the separators of each unit. *)
Definition Editor_units : list (string * list string) :=
  [("characters", [EmptyString]); ("words", [" "; nl]); ("lines", [nl])].

Definition quotemarks : list string :=
  ["quotemark"; "a quotemark"; "Otto von Quotemark"].
Definition newlines : list string := ["newline"; "a newline"].

(** [[subsplit.split(last_delimiter) for subsplit in split_by_others]] *)
Fixpoint split_each (split_by_others : list string) (last_delimiter : string)
  : result (list (list string)) :=
  match split_by_others with
  | [] => Ok []
  | subsplit :: rest =>
      parts ← str_split subsplit last_delimiter;
      nested ← split_each rest last_delimiter;
      Ok (parts :: nested)
  end.

(** [Editor.unit_split], by recursion on the delimiters from the last:
    the text is split by each delimiter in turn; an empty delimiter among
    them gives the characters. *)
Fixpoint unit_split_rev (text : string) (delimiters_rev : list string)
  : result (list string) :=
  match delimiters_rev with
  | [] => Ok [text]
  | last_delimiter :: other_delimiters =>
      if bool_decide (EmptyString ∈ delimiters_rev) then Ok (characters_of text)
      else
        split_by_others ← unit_split_rev text other_delimiters;
        nested_splits ← split_each split_by_others last_delimiter;
        Ok (concat nested_splits)
  end.

Definition unit_split (text : string) (delimiters : list string)
  : result (list string) :=
  unit_split_rev text (reverse delimiters).

(** [Editor.extract_replacement] *)
Definition extract_replacement (text : string) : option string :=
  let text := strip text in
  if bool_decide (text ∈ quotemarks) then Some quote
  else if bool_decide (text ∈ newlines) then Some nl
  else if (String.length text <? 2)%nat then None
  else if startswith text quote && endswith text quote
       then Some (slice_1_m1 text)
       else None.

(** [Editor._write]: what the arguments name, or quote, goes to the end
    of the buffer. *)
Definition _write (args buffer : string) : result string :=
  let args := strip args in
  if bool_decide (args ∈ [EmptyString; "newline"; "a newline"])
  then Ok (buffer +:+ nl)
  else if bool_decide (args ∈ [quote; "quotemark"; "a quotemark"])
  then Ok (buffer +:+ quote)
  else if negb (startswith args quote && endswith args quote)
  then Raise AssertionError
  else Ok (buffer +:+ slice_1_m1 args).

(** The inner loop of [_backspace]: characters go from the end of the
    buffer until it is empty or ends with a separator of the unit.  Each
    round shortens the buffer, so its length is fuel enough. *)
Fixpoint backspace_to_unit (fuel : nat) (unit : list string) (buffer : string)
  : string :=
  match fuel with
  | O => buffer
  | S fuel' =>
      if negb (bool_decide (buffer = EmptyString))
         && negb (existsb (endswith buffer) unit)
      then backspace_to_unit fuel' unit (slice_m1 buffer)
      else buffer
  end.

(** One round of the outer loop: back to the separator, then the
    separator. *)
Definition backspace_unit (unit : list string) (buffer : string) : string :=
  slice_m1 (backspace_to_unit (String.length buffer) unit buffer).

(** [Editor._backspace]: [backspace <number=1> <unit=characters>] *)
Definition _backspace (args buffer : string) : result string :=
  split_args ← str_split args " ";
  '(number_to_backspace, unit) ←
    (if forallb (λ split_arg, bool_decide (split_arg = EmptyString)) split_args
     then Ok (1%Z, default [] (lookup_item "characters" Editor_units))
     else
       match split_args with
       | [string_arg] =>
           match lookup_item string_arg Editor_units with
           | Some unit => Ok (1%Z, unit)
           | None =>
               number ← int string_arg;
               Ok (number, default [] (lookup_item "characters" Editor_units))
           end
       | [number_string; unit_string] =>
           match lookup_item unit_string Editor_units with
           | Some unit => number ← int number_string; Ok (number, unit)
           | None => Raise (KeyError unit_string)
           end
       | _ => Raise (ValueError "too many values to unpack (expected 2)")
       end);
  Ok (Nat.iter (Z.to_nat number_to_backspace) (backspace_unit unit) buffer).

(** [Editor._count]: the count of a unit, or of a quoted text, replaces
    the buffer. *)
Definition _count (args buffer : string) : result string :=
  let args := if bool_decide (args = EmptyString) then "characters" else args in
  match lookup_item args Editor_units with
  | Some unit =>
      if bool_decide (buffer = EmptyString) then Ok "0"
      else
        split_buffer ← unit_split buffer unit;
        Ok (string_of_N
              (N.of_nat (length (filter (λ split, split ≠ EmptyString) split_buffer))))
  | None =>
      let args := strip args in
      if negb (startswith args quote && endswith args quote)
      then Raise AssertionError
      else
        Ok (string_of_N
              (N.of_nat
                 (str_count buffer
                    (strip_by (λ c, bool_decide (c = quotemark)) args))))
  end.

(** [Clock._ordinal_day]: the assignment expression takes the whole
    test, so [last_digit] is a truth value, and as a key of the
    dictionary [True] is [1]. *)
Definition _ordinal_day (day : Z) : result string :=
  let specific_suffixes : list (Z * string) := [(1, "st"); (2, "nd"); (3, "rd")]%Z in
  if bool_decide (10 ≤ day `mod` 100 < 20)%Z then Ok (string_of_Z day +:+ "th")
  else
    let last_digit : bool := bool_decide ((day `mod` 10)%Z ∈ specific_suffixes.*1) in
    if last_digit then
      match list_find (λ kv, kv.1 = Z.b2z last_digit) specific_suffixes with
      | Some (_, (_, suffix)) => Ok (string_of_Z day +:+ suffix)
      | None => Raise (KeyError "True")
      end
    else Ok (string_of_Z day +:+ "th").

(** [Characters._codepoints] *)
Definition _codepoints (args buffer : string) : result string :=
  Ok (String.concat " " (map (λ char, string_of_N (N_of_ascii char))
                           (String.list_ascii_of_string buffer))).

(** ** Notions for the further properties *)

(** A handler that returns keeps the library, and keeps every open
    program with its class. *)
Definition keeps_classes (h : Handler) : Prop :=
  ∀ args state changes state', h args state = Returns changes state' →
    library state' = library state
    ∧ ∀ k p, open_programs state !! k = Some p →
        ∃ b, open_programs state' !! k = Some (mkProgram (program_class p) b).

(** The changes of the remaining code the handlers make: some
    instructions, at most one, are put in front, or all is replaced. *)
Definition prepends_at_most_one (change : StreamTransform) : Prop :=
  ∃ l, length l ≤ 1 ∧ ∀ code, change code = l ++ code.

Definition replaces_all (change : StreamTransform) : Prop :=
  ∃ l, ∀ code, change code = l.

(** The interpreter a called method left, whether it raised or not. *)
Definition interpreter_after (o : Outcome) : Interpreter :=
  match o with
  | Done i => i
  | Failed _ i => i
  end.

(** A handler that never changes the remaining code. *)
Definition no_change (h : Handler) : Prop :=
  ∀ args state changes state', h args state = Returns changes state' → changes = None.

(** A handler that returns leaves the programs other than the current
    one as they are. *)
Definition keeps_others (h : Handler) : Prop :=
  ∀ args state changes state', h args state = Returns changes state' →
    ∀ k p, k ≠ current_program_name state →
      open_programs state !! k = Some p → open_programs state' !! k = Some p.

(** A handler of the name [k] that returns leaves the clipboard, unless
    it is [cut], [copy] or [append]. *)
Definition keeps_clipboard (k : string) (h : Handler) : Prop :=
  ∀ args state changes state', h args state = Returns changes state' →
    k ≠ "cut" → k ≠ "copy" → k ≠ "append" → clipboard state' = clipboard state.

(** What a handler of the name [k] that returns does to the name of the
    current program. *)
Definition moves_as_named (k : string) (h : Handler) : Prop :=
  ∀ args state changes state', h args state = Returns changes state' →
    current_program_name state' = current_program_name state
    ∨ (k = "minimise" ∧ current_program_name state' = "Desktop")
    ∨ (k = "switch" ∧ current_program_name state' = args)
    ∨ (current_program_name state' = k
       ∧ open_programs state !! k = None
       ∧ is_Some (open_programs state' !! k)).

(** Code without [execute] and [run] instructions. *)
Definition straight_line (code : list Instruction) : Prop :=
  Forall (λ c : Instruction, c.1 ≠ "execute" ∧ c.1 ≠ "run") code.

(** ** States and code for the examples *)

(** An Editor open beside the Desktop, and current. *)
Definition editor_state : RuntimeState :=
  mkRuntimeState
    {[ "Desktop" := mkProgram Desktop EmptyString;
       "Editor" := mkProgram Editor "abc" ]}
    "Editor" STANDARD_LIBRARY "xy".

(** After a [switch] to a name that is not open. *)
Definition dangling_state : RuntimeState :=
  with_current_program_name editor_state "nowhere".

Definition CRLF : string := String CR (String LF EmptyString).

Definition example_lines : list (Instruction * string) :=
  [(("Editor", EmptyString), CRLF); (("write", "a  b"), nl +:+ CRLF)].

(** On the Desktop, with the Editor open. *)
Definition desktop_state : RuntimeState :=
  with_current_program_name editor_state "Desktop".

(** The state after [Calculator 1+1] on the Desktop. *)
Definition calculator_opened : RuntimeState :=
  mkRuntimeState
    (<["Calculator" := mkProgram Calculator "1+1"]> (open_programs editor_state))
    "Calculator" STANDARD_LIBRARY "xy".

(** An interpreter about to run three plain commands in the Editor. *)
Definition plain_interpreter : Interpreter :=
  mkInterpreter [] [("copy", EmptyString); ("rem", "note"); ("cut", "some")]
    (Suspended editor_state) [("Editor", "abc")] None.

(** An interpreter about to run [execute] with the clipboard holding
    [execute]. *)
Definition looping_interpreter : Interpreter :=
  mkInterpreter [] [("execute", EmptyString); ("cut", EmptyString)]
    (Suspended (with_clipboard editor_state "execute")) [] None.

(** * Properties *)

(** ** Strings and the lexer *)

Lemma app_String c s t : String c s +:+ t = String c (s +:+ t).
Proof. reflexivity. Qed.

Lemma app_empty_l t : EmptyString +:+ t = t.
Proof. reflexivity. Qed.

Lemma app_empty_r s : s +:+ EmptyString = s.
Proof. induction s as [|c s IH]; [done|]. by rewrite app_String, IH. Qed.

Lemma app_assoc_string s t u : (s +:+ t) +:+ u = s +:+ (t +:+ u).
Proof. induction s as [|c s IH]; [done|]. by rewrite !app_String, IH. Qed.

Lemma length_app_string s t :
  String.length (s +:+ t) = String.length s + String.length t.
Proof. induction s as [|c s IH]; [done|]. rewrite app_String. simpl. by rewrite IH. Qed.

Lemma span_app p s a r : span p s = (a, r) → s = a +:+ r.
Proof.
  revert a r. induction s as [|c s IH]; intros a r; simpl.
  - by intros [= <- <-].
  - destruct (p c).
    + destruct (span p s) as [a' r'] eqn:E. intros [= <- <-].
      rewrite app_String. f_equal. by apply IH.
    + by intros [= <- <-].
Qed.

Lemma span_newlines_app_below n : ∀ s a r,
  String.length s < n → span_newlines s = (a, r) → s = a +:+ r.
Proof.
  induction n as [|n IH]; intros s a r Hn; [lia|].
  destruct s as [|c s]; simpl.
  - by intros [= <- <-].
  - case_bool_decide.
    + destruct (span_newlines s) as [a' r'] eqn:E. intros [= <- <-].
      rewrite app_String. f_equal. apply IH; [simpl in Hn; lia|done].
    + case_bool_decide; [|by intros [= <- <-]].
      destruct s as [|c' s]; [by intros [= <- <-]|].
      case_bool_decide; [|by intros [= <- <-]].
      destruct (span_newlines s) as [a' r'] eqn:E. intros [= <- <-].
      rewrite !app_String. do 2 f_equal. apply IH; [simpl in Hn; lia|done].
Qed.

Lemma span_newlines_app s a r : span_newlines s = (a, r) → s = a +:+ r.
Proof. apply (span_newlines_app_below (S (String.length s))). lia. Qed.

Lemma match_terminal_app t s a r :
  match_terminal t s = Some (a, r) → s = a +:+ r ∧ a ≠ EmptyString.
Proof.
  destruct t; simpl; unfold regex_plus.
  - destruct (span _ s) as [a' r'] eqn:E. destruct a'; [done|].
    intros [= <- <-]. split; [by apply span_app in E|done].
  - destruct (span _ s) as [a' r'] eqn:E. destruct a'; [done|].
    intros [= <- <-]. split; [by apply span_app in E|done].
  - destruct s as [|c s]; [done|].
    destruct (decide (c = " "%char)) as [->|Hne].
    + intros [= <- <-]. done.
    + intros H. exfalso. destruct c as [[] [] [] [] [] [] [] []]; try done.
  - destruct (span_newlines s) as [a' r'] eqn:E. destruct a'; [done|].
    intros [= <- <-]. split; [by apply span_newlines_app in E|done].
Qed.

Lemma lex_app ts s t a r :
  lex ts s = Some (t, a, r) → s = a +:+ r ∧ a ≠ EmptyString.
Proof.
  induction ts as [|t' ts IH]; simpl; [done|].
  destruct (match_terminal t' s) as [[a' r']|] eqn:E; [|done].
  intros [= <- <- <-]. by apply match_terminal_app in E.
Qed.

Lemma lex_shorter ts s t a r :
  lex ts s = Some (t, a, r) → String.length r < String.length s.
Proof.
  intros [-> Ha]%lex_app. rewrite length_app_string.
  destruct a; [done|simpl; lia].
Qed.

(** A fuel above the length of the text is never exhausted: the result
    does not depend on it. *)
Lemma run_parser_fuel n : ∀ m st items s,
  String.length s < n → String.length s < m →
  run_parser n st items s = run_parser m st items s.
Proof.
  induction n as [|n IH]; intros m st items s Hn Hm; [lia|].
  destruct m as [|m]; [lia|]. simpl.
  destruct s as [|c s]; [done|].
  destruct (lex (accepts st) (String c s)) as [[[t a] r]|] eqn:E; [|done].
  destruct (shift st items t a) as [[st' items']|]; [|done].
  apply lex_shorter in E. apply IH; lia.
Qed.

Lemma parse_from_end st items : parse_from st items EmptyString = at_end st items.
Proof. reflexivity. Qed.

Lemma run_parser_S fuel st items s :
  s ≠ EmptyString →
  run_parser (S fuel) st items s =
  match lex (accepts st) s with
  | Some (t, lexeme, rest) =>
      match shift st items t lexeme with
      | Some (st', items') => run_parser fuel st' items' rest
      | None => None
      end
  | None => None
  end.
Proof. by destruct s. Qed.

Lemma parse_from_step st items s t a r st' items' :
  lex (accepts st) s = Some (t, a, r) →
  shift st items t a = Some (st', items') →
  parse_from st items s = parse_from st' items' r.
Proof.
  intros Hlex Hshift. unfold parse_from.
  etrans; [apply run_parser_S; intros ->; by destruct st|].
  rewrite Hlex, Hshift.
  apply run_parser_fuel; [apply lex_shorter in Hlex; lia|lia].
Qed.

Lemma parse_from_stuck st items s :
  s ≠ EmptyString → lex (accepts st) s = None → parse_from st items s = None.
Proof.
  intros Hs Hlex. unfold parse_from. rewrite run_parser_S by done. by rewrite Hlex.
Qed.

(** ** The parser's instructions are valid *)

Lemma span_forall p s a r : span p s = (a, r) → string_forall p a = true.
Proof.
  revert a r. induction s as [|c s IH]; intros a r; simpl.
  - by intros [= <- <-].
  - destruct (p c) eqn:Hc; [|by intros [= <- <-]].
    destruct (span p s) as [a' r'] eqn:E. intros [= <- <-].
    simpl. rewrite Hc. by eapply IH.
Qed.

Lemma span_exact p a t :
  string_forall p a = true → stops p t = true → span p (a +:+ t) = (a, t).
Proof.
  intros Ha Ht. induction a as [|c a IH].
  - rewrite app_empty_l. destruct t as [|c t]; [done|]. simpl in *.
    by destruct (p c).
  - simpl in Ha. apply andb_prop in Ha as [Hc Ha].
    rewrite app_String. simpl. rewrite Hc, IH by done. done.
Qed.

Lemma regex_plus_exact p a t :
  a ≠ EmptyString → string_forall p a = true → stops p t = true →
  regex_plus p (a +:+ t) = Some (a, t).
Proof.
  intros Hne Ha Ht. unfold regex_plus. rewrite span_exact by done.
  by destruct a.
Qed.

Lemma regex_plus_valid p s a r :
  regex_plus p s = Some (a, r) → a ≠ EmptyString ∧ string_forall p a = true.
Proof.
  unfold regex_plus. destruct (span p s) as [a' r'] eqn:E.
  destruct a' as [|c a']; [done|]. intros [= <- <-].
  split; [done|]. by eapply span_forall.
Qed.

Lemma lex_match ts s t a r :
  lex ts s = Some (t, a, r) → t ∈ ts ∧ match_terminal t s = Some (a, r).
Proof.
  induction ts as [|t' ts IH]; simpl; [done|].
  destruct (match_terminal t' s) as [[a' r']|] eqn:E.
  - intros [= <- <- <-]. split; [left|done].
  - intros [Hin Hm]%IH. split; [by right|done].
Qed.

Lemma valid_instruction_intro n a :
  n ≠ EmptyString →
  string_forall (λ c, negb (is_whitespace c)) n = true →
  string_forall (λ c, negb (is_line_break c)) a = true →
  valid_instruction (n, a) = true.
Proof.
  intros Hn Hws Hlb. unfold valid_instruction. simpl.
  rewrite Hws, Hlb. by rewrite bool_decide_eq_false_2.
Qed.

Lemma valid_instruction_elim n a :
  valid_instruction (n, a) = true →
  n ≠ EmptyString
  ∧ string_forall (λ c, negb (is_whitespace c)) n = true
  ∧ string_forall (λ c, negb (is_line_break c)) a = true.
Proof.
  unfold valid_instruction. simpl.
  intros [[Hn Hws]%andb_prop Hlb]%andb_prop.
  apply negb_true_iff, bool_decide_eq_false in Hn. done.
Qed.

Lemma shift_valid st items t a r s st' items' :
  state_valid st → Forall item_valid items →
  match_terminal t s = Some (a, r) →
  shift st items t a = Some (st', items') →
  state_valid st' ∧ Forall item_valid items'.
Proof.
  intros Hst Hitems Hm Hshift.
  destruct st, t; simpl in *; simplify_eq; simpl.
  - apply regex_plus_valid in Hm as [? ?]. split; [|done].
    by apply valid_instruction_intro.
  - split; [done|]. apply Forall_app. split; [done|]. by repeat constructor.
  - done.
  - split; [done|]. apply Forall_app. split; [done|]. by repeat constructor.
  - apply regex_plus_valid in Hm as [? ?].
    apply valid_instruction_elim in Hst as (? & ? & ?). split; [|done].
    by apply valid_instruction_intro.
  - done.
  - split; [done|]. apply Forall_app. split; [done|]. by repeat constructor.
Qed.

Lemma run_parser_valid fuel : ∀ st items s out,
  state_valid st → Forall item_valid items →
  run_parser fuel st items s = Some out → Forall item_valid out.
Proof.
  induction fuel as [|fuel IH]; intros st items s out Hst Hitems; [done|].
  destruct s as [|c s].
  - simpl. destruct st; simpl in *; intros [= <-]; try done;
      apply Forall_app; (split; [done|]); by repeat constructor.
  - rewrite run_parser_S by done.
    destruct (lex (accepts st) (String c s)) as [[[t a] r]|] eqn:E; [|done].
    destruct (shift st items t a) as [[st' items']|] eqn:Hs; [|done].
    apply lex_match in E as [_ Hm].
    destruct (shift_valid _ _ _ _ _ _ _ _ Hst Hitems Hm Hs) as [? ?].
    by apply IH.
Qed.

Lemma program_valid items :
  Forall item_valid items →
  Forall (λ i, valid_instruction i = true) (TreeParser.program items).
Proof.
  unfold TreeParser.program. induction 1 as [|o items Ho _ IH]; [constructor|].
  destruct o as [i|]; simpl; [by constructor|done].
Qed.

(** Every instruction [parse_logos] returns has a name that is not empty
    and free of white space, and arguments free of line breaks. *)
Lemma parse_logos_valid text instructions :
  parse_logos text = Some instructions →
  Forall (λ i, valid_instruction i = true) instructions.
Proof.
  unfold parse_logos, parser_parse. case_bool_decide.
  - intros [= <-]. constructor.
  - destruct (run_parser _ _ _ _) as [out|] eqn:E; [|done].
    intros [= <-]. apply program_valid.
    by eapply (run_parser_valid _ AtLine []).
Qed.

(** ** Reading back the serialised instructions *)

Lemma not_whitespace_not_newline c s :
  is_whitespace c = false → match_terminal T_NEWLINE (String c s) = None.
Proof.
  intros Hc. simpl. repeat case_bool_decide; subst; done.
Qed.

Lemma name_first_char n :
  n ≠ EmptyString → string_forall (λ c, negb (is_whitespace c)) n = true →
  ∃ c n', n = String c n' ∧ is_whitespace c = false.
Proof.
  destruct n as [|c n']; [done|]. simpl. intros _ [Hc _]%andb_prop.
  exists c, n'. split; [done|]. by apply negb_true_iff.
Qed.

Lemma line_end_stops_name t o :
  line_end t o → stops (λ c, negb (is_whitespace c)) t = true.
Proof. by destruct 1. Qed.

Lemma line_end_stops_args t o :
  line_end t o → stops (λ c, negb (is_line_break c)) t = true.
Proof. by destruct 1. Qed.

Lemma lex_newline_at_line_end ts t :
  stops is_whitespace t = true →
  lex (T_NEWLINE :: ts) (nl +:+ t) = Some (T_NEWLINE, nl, t).
Proof.
  intros Ht. unfold nl. rewrite app_String, app_empty_l.
  unfold lex, match_terminal. cbn [span_newlines].
  rewrite bool_decide_eq_true_2 by done.
  destruct t as [|c t]; [done|]. simpl in Ht. apply negb_true_iff in Ht.
  cbn [span_newlines]. repeat case_bool_decide; subst; try done.
Qed.

(** One serialised line is read back as its instruction. *)
Lemma parse_from_line items i t o :
  valid_instruction i = true → line_end t o →
  parse_from AtLine items (serialize_instruction i +:+ t) =
  match o with
  | None => Some (items ++ [Some i])
  | Some t' => parse_from AtLine (items ++ [Some i]) t'
  end.
Proof.
  destruct i as [n a]. intros (Hn & Hws & Hlb)%valid_instruction_elim Hend.
  destruct (name_first_char n Hn Hws) as (c & n' & Heq & Hc).
  assert (Hname : ∀ u, stops (λ c, negb (is_whitespace c)) u = true →
    lex (accepts AtLine) (n +:+ u) = Some (T_NAME, n, u)).
  { intros u Hu. unfold accepts, lex.
    replace (match_terminal T_NEWLINE (n +:+ u)) with (@None (string * string))
      by (rewrite Heq, app_String; symmetry; by apply not_whitespace_not_newline).
    unfold match_terminal. by rewrite regex_plus_exact. }
  assert (Hlast : ∀ st, at_end st items = Some (items ++ [Some (n, a)]) →
    (∀ u, stops is_whitespace u = true →
          shift st items T_NEWLINE nl = Some (AtLine, items ++ [Some (n, a)])) →
    accepts st = T_NEWLINE :: tail (accepts st) →
    parse_from st items t =
    match o with
    | None => Some (items ++ [Some (n, a)])
    | Some t' => parse_from AtLine (items ++ [Some (n, a)]) t'
    end).
  { intros st Hat Hsh Hacc. destruct Hend as [|t' Ht'].
    - by rewrite parse_from_end.
    - eapply parse_from_step; [|by eapply Hsh].
      rewrite Hacc. by apply lex_newline_at_line_end. }
  destruct a as [|c0 a0].
  - simpl serialize_instruction.
    erewrite parse_from_step;
      [|apply Hname; by eapply line_end_stops_name|reflexivity].
    by apply (Hlast (AfterName n)).
  - set (a := String c0 a0) in *. simpl serialize_instruction.
    rewrite !app_assoc_string.
    erewrite parse_from_step; [|apply Hname; done|reflexivity].
    erewrite parse_from_step; [|reflexivity|reflexivity].
    erewrite (parse_from_step (AfterSpace n) items (a +:+ t) T_ARGS a t);
      [|unfold accepts, lex, match_terminal;
        rewrite regex_plus_exact;
          [done|done|done|by eapply line_end_stops_args]
       |reflexivity].
    by apply (Hlast (AfterArgs n a)).
Qed.

Lemma serialize_stops i l :
  valid_instruction i = true → stops is_whitespace (serialize (i :: l)) = true.
Proof.
  destruct i as [n a]. intros (Hn & Hws & _)%valid_instruction_elim.
  destruct (name_first_char n Hn Hws) as (c & n' & -> & Hc).
  destruct l, a; simpl; rewrite ?app_String; simpl; by rewrite Hc.
Qed.

Lemma serialize_cons i i' l :
  serialize (i :: i' :: l) = serialize_instruction i +:+ nl +:+ serialize (i' :: l).
Proof. reflexivity. Qed.

Lemma parse_from_serialize l : ∀ items,
  Forall (λ i, valid_instruction i = true) l →
  parse_from AtLine items (serialize l) = Some (items ++ (Some <$> l)).
Proof.
  induction l as [|i l IH]; intros items Hl.
  - rewrite parse_from_end. simpl. by rewrite app_nil_r.
  - apply Forall_cons in Hl as [Hi Hl]. destruct l as [|i' l].
    + change (serialize [i]) with (serialize_instruction i).
      rewrite <- (app_empty_r (serialize_instruction i)).
      by rewrite (parse_from_line items i _ None Hi line_end_eof).
    + rewrite serialize_cons.
      rewrite (parse_from_line items i _ (Some (serialize (i' :: l))) Hi).
      * rewrite IH by done. by rewrite <- app_assoc.
      * constructor. apply serialize_stops. by apply Forall_cons in Hl as [? _].
Qed.

Lemma program_fmap_Some l : TreeParser.program (Some <$> l) = l.
Proof.
  unfold TreeParser.program. induction l as [|i l IH]; [done|].
  simpl. by f_equal.
Qed.

(** Valid instructions, serialised, parse back to themselves. *)
Lemma parse_logos_serialize l :
  Forall (λ i, valid_instruction i = true) l →
  parse_logos (serialize l) = Some l.
Proof.
  intros Hl. unfold parse_logos. case_bool_decide as Hempty.
  - destruct l as [|i l]; [done|]. exfalso.
    pose proof (serialize_stops i l) as Hs.
    apply Forall_cons in Hl as [Hi _]. specialize (Hs Hi).
    destruct i as [n a]. apply valid_instruction_elim in Hi as (Hn & Hws & _).
    destruct (name_first_char n Hn Hws) as (c & n' & -> & Hc).
    destruct l, a; simpl in Hempty; rewrite ?app_String in Hempty; done.
  - unfold parser_parse. fold (parse_from AtLine [] (serialize l)).
    rewrite parse_from_serialize by done. simpl. by rewrite program_fmap_Some.
Qed.

(** C9.  Parsing an instruction text, serialising each instruction as its
    name, then a single space and its arguments when the arguments are
    not empty, one instruction per line, and parsing that text again
    gives the instructions of the first parse.  The arguments of a parsed
    instruction never hold a line break. *)
Theorem parse_serialize_reparse (text : string) (instructions : list Instruction) :
  parse_logos text = Some instructions →
  parse_logos (serialize instructions) = Some instructions.
Proof.
  intros Hparse. apply parse_logos_serialize. by eapply parse_logos_valid.
Qed.

Lemma parse_serialize_reparse_witness :
  let text := "Editor" +:+ nl +:+ nl +:+ "write a  b" +:+ nl +:+ "cut" in
  let instructions := [("Editor", EmptyString); ("write", "a  b"); ("cut", EmptyString)] in
  parse_logos text = Some instructions
  ∧ parse_logos (serialize instructions) = Some instructions.
Proof.
  split; [reflexivity|].
  apply (parse_serialize_reparse
           ("Editor" +:+ nl +:+ nl +:+ "write a  b" +:+ nl +:+ "cut")).
  reflexivity.
Defined.

(** ** The arithmetic lexer *)

Ltac string_norm :=
  repeat (rewrite app_assoc_string || rewrite app_String || rewrite app_empty_l).

Lemma match_sign_app s sg r : match_sign s = (sg, r) → s = sg +:+ r.
Proof.
  unfold match_sign. destruct s as [|c s]; [by intros [= <- <-]|].
  destruct (decide (c = "+"%char)) as [->|H1]; [by intros [= <- <-]|].
  destruct (decide (c = "-"%char)) as [->|H2]; [by intros [= <- <-]|].
  destruct c as [[] [] [] [] [] [] [] []]; try done; by intros [= <- <-].
Qed.

Lemma match_EXP_app s x r :
  match_EXP s = Some (x, r) → s = x +:+ r ∧ x ≠ EmptyString.
Proof.
  unfold match_EXP. destruct s as [|c s]; [done|].
  destruct (_ || _); [|done].
  destruct (match_sign s) as [sg r1] eqn:Hsg. apply match_sign_app in Hsg as ->.
  destruct (span is_digit r1) as [ds r2] eqn:Hds. apply span_app in Hds as ->.
  destruct ds as [|d ds]; [done|]. intros [= <- <-]. split; [|done].
  by string_norm.
Qed.

Lemma with_optional_EXP_app lexeme rest l r :
  with_optional_EXP lexeme rest = (l, r) →
  lexeme +:+ rest = l +:+ r ∧ (lexeme ≠ EmptyString → l ≠ EmptyString).
Proof.
  unfold with_optional_EXP.
  destruct (match_EXP rest) as [[x r']|] eqn:E; intros [= <- <-]; [|done].
  apply match_EXP_app in E as [-> _]. split; [by string_norm|].
  by destruct lexeme.
Qed.

Lemma match_NUMBER_app s n r :
  match_NUMBER s = Some (n, r) → s = n +:+ r ∧ n ≠ EmptyString.
Proof.
  unfold match_NUMBER. destruct (span is_digit s) as [i r0] eqn:Hi.
  pose proof (span_app _ _ _ _ Hi) as Hs. destruct i as [|c i].
  - destruct s as [|c s]; [done|].
    destruct (decide (c = "."%char)) as [->|Hc];
      [|destruct c as [[] [] [] [] [] [] [] []]; done].
    destruct (span is_digit s) as [f r2] eqn:Hf. apply span_app in Hf as ->.
    destruct f as [|d f]; [done|].
    destruct (with_optional_EXP _ r2) as [l r'] eqn:Hw. intros [= <- <-].
    apply with_optional_EXP_app in Hw as [Hw Hne]. split; [|by apply Hne].
    rewrite <- Hw. by string_norm.
  - set (i' := String c i) in *.
    destruct (match_EXP r0) as [[x r']|] eqn:E.
    { intros [= <- <-]. apply match_EXP_app in E as [-> _].
      split; [by string_norm|done]. }
    assert (Hint : Some (i', r0) = Some (n, r) → s = n +:+ r ∧ n ≠ EmptyString).
    { intros [= <- <-]. by subst i'. }
    destruct r0 as [|c0 r1]; [done|].
    destruct (decide (c0 = "."%char)) as [->|Hc];
      [|destruct c0 as [[] [] [] [] [] [] [] []]; done].
    destruct (span is_digit r1) as [f r2] eqn:Hf. apply span_app in Hf as ->.
    destruct (with_optional_EXP _ r2) as [l r'] eqn:Hw. intros [= <- <-].
    apply with_optional_EXP_app in Hw as [Hw Hne]. split; [|by apply Hne].
    rewrite <- Hw, Hs. by string_norm.
Qed.

Lemma match_SIGNED_NUMBER_shorter s lexeme rest :
  match_SIGNED_NUMBER s = Some (lexeme, rest) →
  String.length rest < String.length s.
Proof.
  unfold match_SIGNED_NUMBER. destruct (match_sign s) as [sg r] eqn:Hsg.
  apply match_sign_app in Hsg as ->.
  destruct (match_NUMBER r) as [[n r']|] eqn:Hn; [|done]. intros [= <- <-].
  apply match_NUMBER_app in Hn as [-> Hne]. rewrite !length_app_string.
  destruct n; [done|simpl; lia].
Qed.

Lemma span_rest_length p s : String.length (span p s).2 ≤ String.length s.
Proof.
  destruct (span p s) as [a r] eqn:E. apply span_app in E as ->.
  rewrite length_app_string. simpl. lia.
Qed.

(** A fuel above the length of the text is never exhausted by the
    arithmetic lexer either. *)
Lemma calc_tokens_fuel n : ∀ m operand s,
  String.length s < n → String.length s < m →
  calc_tokens n operand s = calc_tokens m operand s.
Proof.
  induction n as [|n IH]; intros m operand s Hn Hm; [lia|].
  destruct m as [|m]; [lia|]. simpl.
  pose proof (span_rest_length is_WS s) as Hws.
  destruct (span is_WS s).2 as [|c r] eqn:Hs; [done|]. simpl in Hws.
  destruct operand.
  - destruct (match_SIGNED_NUMBER (String c r)) as [[lexeme rest]|] eqn:E.
    + apply match_SIGNED_NUMBER_shorter in E. simpl in E. f_equal. apply IH; lia.
    + case_bool_decide; [|done]. f_equal. apply IH; lia.
  - repeat (case_bool_decide; [f_equal; apply IH; lia|]). done.
Qed.

(** ** The arithmetic evaluator *)

Section CalculatorFacts.

Variable power_other : Decimal → Decimal → result Decimal.






End CalculatorFacts.


(** ** The dispatcher *)

Section RuntimeFacts.

Variable power_other : Decimal → Decimal → result Decimal.
Variable external : ProgramClass → string → string → string → result string.

Lemma run_once_returns cmd i state command args rest changes state' :
  runtime i = Suspended state →
  fetch cmd i = Ok ((command, args), rest) →
  dispatch power_other external command args state = Returns changes state' →
  run_once power_other external cmd i =
  Done (mkInterpreter (source i)
          (match changes with Some change => change rest | None => rest end)
          (Suspended state') (history i ++ [(command, args)]) (Some state')).
Proof.
  intros Hrun Hfetch Hd. unfold run_once, send.
  by rewrite Hfetch, Hrun, Hd.
Qed.


Lemma fetch_head i c rest : remaining_code i = c :: rest → fetch None i = Ok (c, rest).
Proof. unfold fetch. by intros ->. Qed.

Lemma dispatch_execute args state :
  dispatch power_other external "execute" args state = execute args state.
Proof. reflexivity. Qed.

(** C10.  With an empty clipboard, [execute] with empty arguments
    succeeds and changes neither the runtime state nor the remaining
    instructions (those after the [execute] instruction itself): the
    empty text parses to no instruction, so nothing is put in front. *)
Theorem execute_empty_is_noop (i : Interpreter) (state : RuntimeState)
    (rest : list Instruction) :
  runtime i = Suspended state →
  clipboard state = EmptyString →
  remaining_code i = ("execute", EmptyString) :: rest →
  run_once power_other external None i =
  Done (mkInterpreter (source i) rest (Suspended state)
          (history i ++ [("execute", EmptyString)]) (Some state)).
Proof.
  intros Hrun Hclip Hcode.
  rewrite (run_once_returns None i state "execute" EmptyString rest
             (Some (λ current_code, take 1 [] ++ current_code)) state);
    [done|done|by apply fetch_head|].
  rewrite dispatch_execute. unfold execute, execute_text. by rewrite Hclip.
Qed.

(** C2, as amended.  [execute] parses the arguments, a space after them
    when they are not empty and do not end in one, and then the
    clipboard ([execute_text]); it puts only the first instruction of the
    parse in front of the remaining instructions, so of three only the
    first, and leaves the runtime state as it is. *)
Theorem execute_prepends_first_instruction (i : Interpreter) (state : RuntimeState)
    (args : string) (rest parsed : list Instruction) :
  runtime i = Suspended state →
  remaining_code i = ("execute", args) :: rest →
  parse_logos (execute_text args (clipboard state)) = Some parsed →
  run_once power_other external None i =
    Done (mkInterpreter (source i) (take 1 parsed ++ rest) (Suspended state)
            (history i ++ [("execute", args)]) (Some state))
  ∧ ∀ a b c, parsed = [a; b; c] → take 1 parsed ++ rest = a :: rest.
Proof.
  intros Hrun Hcode Hparse. split; [|by intros a b c ->].
  rewrite (run_once_returns None i state "execute" args rest
             (Some (λ current_code, take 1 parsed ++ current_code)) state);
    [done|done|by apply fetch_head|].
  rewrite dispatch_execute. unfold execute. by rewrite Hparse.
Qed.

(** C3.  The change a handler returns is applied to the instructions
    that remain once the instruction that ran has been removed: when the
    handler of [A] returns the change that puts [X] in front, the
    remaining instructions [A :: rest] become [X :: rest], not
    [X :: A :: rest]. *)
Theorem change_applies_after_removal (i : Interpreter) (state state' : RuntimeState)
    (A : Instruction) (rest : list Instruction) (change : StreamTransform) :
  runtime i = Suspended state →
  remaining_code i = A :: rest →
  dispatch power_other external A.1 A.2 state = Returns (Some change) state' →
  ∃ i', run_once power_other external None i = Done i'
        ∧ remaining_code i' = change rest
        ∧ runtime i' = Suspended state'
        ∧ ∀ X, (∀ old, change old = X :: old) →
               remaining_code i' = X :: rest ∧ remaining_code i' ≠ X :: A :: rest.
Proof.
  intros Hrun Hcode Hd. destruct A as [command args]. eexists. split.
  { eapply run_once_returns; [done|by apply fetch_head|done]. }
  simpl. split; [done|]. split; [done|]. intros X HX. rewrite HX.
  split; [done|]. intros [= Heq]. apply (f_equal length) in Heq. simpl in Heq. lia.
Qed.

Lemma run_is_no_keyword : lookup_item "run" KEYWORDS = None.
Proof. reflexivity. Qed.

(** C1, as amended.  [run] is not among the keywords: it is the command
    of the Terminal program, found through the current program.  When the
    current program is a Terminal whose buffer parses, [run] with no
    arguments replaces all the remaining instructions by the parsed ones
    and clears the buffer. *)
Theorem run_in_Terminal (i : Interpreter) (state : RuntimeState) (b : string)
    (rest parsed : list Instruction) :
  runtime i = Suspended state →
  remaining_code i = ("run", EmptyString) :: rest →
  open_programs state !! current_program_name state = Some (mkProgram Terminal b) →
  parse_logos b = Some parsed →
  let state' :=
    with_open_programs state
      (<[current_program_name state := mkProgram Terminal EmptyString]>
         (open_programs state)) in
  lookup_item "run" KEYWORDS = None
  ∧ run_once power_other external None i =
    Done (mkInterpreter (source i) parsed (Suspended state')
            (history i ++ [("run", EmptyString)]) (Some state'))
  ∧ current_buffer state' = Ok EmptyString.
Proof.
  intros Hrun Hcode Hcur Hparse state'. split; [done|]. split.
  - rewrite (run_once_returns None i state "run" EmptyString rest
               (Some (λ _, parsed)) state'); [done|done|by apply fetch_head|].
    unfold dispatch. rewrite run_is_no_keyword.
    unfold current_program. rewrite Hcur. simpl.
    unfold _run, current_buffer, clear_buffer, set_current_buffer, current_program.
    simpl. rewrite Hcur. simpl. by rewrite Hparse.
  - unfold current_buffer, current_program, state'. simpl.
    by rewrite lookup_insert_eq.
Qed.


(** *** Every handler is atomic and closes no program *)

Ltac handler_cases :=
  unfold rem, _equals, _append_and_equals in *;
  unfold functional_command, cut, copy, paste, name, execute, _run, _append,
    _compile, program_opener, minimise, switch,
    current_buffer, clear_buffer, set_current_buffer, current_program,
    current_program_open, with_clipboard, with_open_programs,
    with_current_program_name in *;
  simpl in *;
  repeat (first [ progress simplify_eq/= | case_match | case_bool_decide ]).

Ltac open_cases :=
  try done;
  split; intros; rewrite ?lookup_insert; repeat case_decide; simplify_eq; eauto.

Lemma functional_command_atomic f : atomic (functional_command f).
Proof. intros args state e state' H. by handler_cases. Qed.

Lemma functional_command_keeps_open f : keeps_open (functional_command f).
Proof. intros args state changes state' H. handler_cases. open_cases. Qed.

Lemma program_opener_atomic X : atomic (program_opener X).
Proof. intros args state e state' H. by handler_cases. Qed.

Lemma program_opener_keeps_open X : keeps_open (program_opener X).
Proof. intros args state changes state' H. handler_cases; open_cases. Qed.

Lemma commands_behave cls :
  Forall (λ kv, atomic kv.2 ∧ keeps_open kv.2) (_commands power_other external cls).
Proof.
  destruct cls; simpl; repeat (apply Forall_cons; split; [split|]);
    try (by apply Forall_nil); simpl;
    try apply functional_command_atomic; try apply functional_command_keeps_open;
    intros args state ? state' H; handler_cases; open_cases.
Qed.

Lemma lookup_item_Forall {A} (P : string → A → Prop) d key v :
  Forall (λ kv, P kv.1 kv.2) d → lookup_item key d = Some v → P key v.
Proof.
  induction 1 as [|[k x] d Hk _ IH]; simpl; [done|].
  case_bool_decide; [|done]. intros [= <-]. by subst.
Qed.

Lemma get_command_behaves p command_name h :
  get_command power_other external p command_name = Ok h → atomic h ∧ keeps_open h.
Proof.
  unfold get_command. pose proof (commands_behave (program_class p)) as Hc.
  assert (∀ h', lookup_item command_name
                  (_commands power_other external (program_class p)) = Some h' →
                atomic h' ∧ keeps_open h') as Hl.
  { intros h' Hh'.
    by apply (lookup_item_Forall (λ _ h, atomic h ∧ keeps_open h) _ _ _ Hc Hh'). }
  destruct (program_class p); try (case_match; [|done]; intros [= <-]; by apply Hl).
  - intros [= <-]. split; [apply program_opener_atomic|apply program_opener_keeps_open].
  - done.
Qed.

Lemma keywords_behave :
  Forall (λ kv, atomic kv.2
                ∧ (kv.1 ≠ "switch" → kv.1 ≠ "minimise" → keeps_open kv.2)
                ∧ (kv.1 = "switch" → kv.2 = switch)
                ∧ (kv.1 = "minimise" → kv.2 = minimise)) KEYWORDS.
Proof.
  unfold KEYWORDS.
  repeat (apply Forall_cons; split; [split; [|split; [|split]]|]);
    try (by apply Forall_nil); simpl; try done.
  all: try (intros args state ? state' H; by handler_cases).
  all: intros _ _ args state ? state' H; handler_cases; open_cases.
Qed.

Lemma keyword_behaves command_name h :
  lookup_item command_name KEYWORDS = Some h →
  atomic h
  ∧ (command_name ≠ "switch" → command_name ≠ "minimise" → keeps_open h)
  ∧ (command_name = "switch" → h = switch)
  ∧ (command_name = "minimise" → h = minimise).
Proof.
  intros H.
  exact (lookup_item_Forall
           (λ k h, atomic h ∧ (k ≠ "switch" → k ≠ "minimise" → keeps_open h)
                   ∧ (k = "switch" → h = switch) ∧ (k = "minimise" → h = minimise))
           _ _ _ keywords_behave H).
Qed.


(** A command that returns leaves the current program and the Desktop
    open, unless it is a [switch] to a program that is not open. *)
Lemma dispatch_keeps_open command_name command_args state changes state' :
  current_program_open state →
  is_Some (open_programs state !! "Desktop") →
  switch_to_open command_name command_args state →
  dispatch power_other external command_name command_args state
    = Returns changes state' →
  current_program_open state' ∧ is_Some (open_programs state' !! "Desktop").
Proof.
  intros Hcur Hdesk Hswitch. unfold dispatch.
  destruct (lookup_item command_name KEYWORDS) as [h|] eqn:Hk.
  - apply keyword_behaves in Hk as (_ & Hkeep & Hsw & Hmin).
    destruct (decide (command_name = "switch")) as [Heq|Hne].
    { rewrite (Hsw Heq). specialize (Hswitch Heq). intros H. by handler_cases. }
    destruct (decide (command_name = "minimise")) as [Heq'|Hne'].
    { rewrite (Hmin Heq'). intros H. by handler_cases. }
    intros H. destruct (Hkeep Hne Hne' _ _ _ _ H) as [Hall Hc]. auto.
  - destruct (current_program state) as [p|]; [|done].
    destruct (get_command power_other external p command_name) as [h|] eqn:Hg; [|done].
    apply get_command_behaves in Hg as [_ Hkeep].
    intros H. destruct (Hkeep _ _ _ _ H) as [Hall Hc]. auto.
Qed.


Lemma reachable_open allowed init state :
  (∀ n a s, allowed n a s → switch_to_open n a s) →
  current_program_open init → is_Some (open_programs init !! "Desktop") →
  reachable power_other external allowed init state →
  current_program_open state ∧ is_Some (open_programs state !! "Desktop").
Proof.
  intros Hallowed Hcur Hdesk. induction 1 as [|s n a ch s' _ [IHc IHd] Hal Hd]; [done|].
  eapply dispatch_keeps_open; eauto.
Qed.

(** C4, as amended.  In every state the runtime reaches from its start on
    the Desktop by commands of which each [switch] names an open program,
    the current program name is a key of the open programs.  ([switch]
    itself checks nothing: see the counterexample.) *)
Theorem current_program_stays_open (library : gmap string ProgramClass)
    (initial_buffer : string) (state : RuntimeState) :
  reachable power_other external switch_to_open
    (initial_state Desktop library initial_buffer) state →
  current_program_open state.
Proof.
  intros Hreach.
  apply (reachable_open switch_to_open _ _ (λ _ _ _ H, H)) in Hreach as [? _];
    [done| |]; unfold current_program_open; simpl; by rewrite lookup_singleton_eq.
Qed.

End RuntimeFacts.

Lemma execute_empty_is_noop_witness :
  let state := initial_state Desktop STANDARD_LIBRARY EmptyString in
  let i := mkInterpreter [] [("execute", EmptyString); ("cut", EmptyString)]
             (Suspended state) [] None in
  clipboard state = EmptyString
  ∧ run_once no_power no_external None i =
    Done (mkInterpreter [] [("cut", EmptyString)] (Suspended state)
            [("execute", EmptyString)] (Some state)).
Proof.
  split; [reflexivity|].
  apply (execute_empty_is_noop no_power no_external
           (mkInterpreter [] [("execute", EmptyString); ("cut", EmptyString)]
              (Suspended (initial_state Desktop STANDARD_LIBRARY EmptyString)) [] None)
           (initial_state Desktop STANDARD_LIBRARY EmptyString)
           [("cut", EmptyString)]); reflexivity.
Defined.

Lemma execute_prepends_first_instruction_witness :
  let state :=
    with_clipboard (initial_state Desktop STANDARD_LIBRARY EmptyString)
      ("x" +:+ nl +:+ "cut" +:+ nl +:+ "paste") in
  let i := mkInterpreter [] [("execute", "write"); ("copy", EmptyString)]
             (Suspended state) [] None in
  parse_logos (execute_text "write" (clipboard state))
    = Some [("write", "x"); ("cut", EmptyString); ("paste", EmptyString)]
  ∧ run_once no_power no_external None i =
    Done (mkInterpreter [] [("write", "x"); ("copy", EmptyString)] (Suspended state)
            [("execute", "write")] (Some state)).
Proof.
  split; [reflexivity|].
  apply (execute_prepends_first_instruction no_power no_external
           (mkInterpreter [] [("execute", "write"); ("copy", EmptyString)]
              (Suspended
                 (with_clipboard (initial_state Desktop STANDARD_LIBRARY EmptyString)
                    ("x" +:+ nl +:+ "cut" +:+ nl +:+ "paste"))) [] None)
           _ "write" [("copy", EmptyString)]
           [("write", "x"); ("cut", EmptyString); ("paste", EmptyString)]);
    reflexivity.
Defined.

(** C2 as stated fails: with the arguments [write] and the clipboard [x],
    the concatenation [writex] parses to the instruction named [writex],
    while [execute] puts the instruction [write x] in front. *)
Lemma execute_parses_concatenation_counterexample :
  let state := with_clipboard (initial_state Desktop STANDARD_LIBRARY EmptyString) "x" in
  let i := mkInterpreter [] [("execute", "write")] (Suspended state) [] None in
  parse_logos ("write" +:+ clipboard state) = Some [("writex", EmptyString)]
  ∧ run_once no_power no_external None i =
    Done (mkInterpreter [] [("write", "x")] (Suspended state)
            [("execute", "write")] (Some state))
  ∧ [("write", "x")] ≠ take 1 [("writex", EmptyString)] ++ ([] : list Instruction).
Proof. split; [reflexivity|]. split; [reflexivity|]. intros [=]. Qed.

Lemma change_applies_after_removal_witness :
  let state := with_clipboard (initial_state Desktop STANDARD_LIBRARY EmptyString) "X" in
  let A := ("execute", EmptyString) in
  let i := mkInterpreter [] [A; ("B", EmptyString); ("C", EmptyString)]
             (Suspended state) [] None in
  ∃ i', run_once no_power no_external None i = Done i'
        ∧ remaining_code i'
          = [("X", EmptyString); ("B", EmptyString); ("C", EmptyString)].
Proof.
  destruct (change_applies_after_removal no_power no_external
              (mkInterpreter [] [("execute", EmptyString); ("B", EmptyString);
                                 ("C", EmptyString)]
                 (Suspended (with_clipboard
                    (initial_state Desktop STANDARD_LIBRARY EmptyString) "X")) [] None)
              _ _ ("execute", EmptyString) [("B", EmptyString); ("C", EmptyString)]
              (λ current_code, take 1 [("X", EmptyString)] ++ current_code)
              eq_refl eq_refl eq_refl) as (i' & Hrun & Hcode & _).
  exists i'. split; [exact Hrun|exact Hcode].
Defined.

Lemma run_in_Terminal_witness :
  let state :=
    mkRuntimeState
      {[ "Desktop" := mkProgram Desktop EmptyString;
         "Terminal" := mkProgram Terminal ("cut" +:+ nl +:+ "paste") ]}
      "Terminal" STANDARD_LIBRARY EmptyString in
  let i := mkInterpreter [] [("run", EmptyString); ("copy", EmptyString)]
             (Suspended state) [] None in
  let state' :=
    with_open_programs state
      (<[current_program_name state := mkProgram Terminal EmptyString]>
         (open_programs state)) in
  open_programs state !! current_program_name state
    = Some (mkProgram Terminal ("cut" +:+ nl +:+ "paste"))
  ∧ parse_logos ("cut" +:+ nl +:+ "paste")
    = Some [("cut", EmptyString); ("paste", EmptyString)]
  ∧ lookup_item "run" KEYWORDS = None
  ∧ run_once no_power no_external None i =
    Done (mkInterpreter [] [("cut", EmptyString); ("paste", EmptyString)]
            (Suspended state') [("run", EmptyString)] (Some state'))
  ∧ current_buffer state' = Ok EmptyString.
Proof.
  split; [vm_compute; reflexivity|]. split; [reflexivity|].
  apply (run_in_Terminal no_power no_external
           (mkInterpreter [] [("run", EmptyString); ("copy", EmptyString)]
              (Suspended
                 (mkRuntimeState
                    {[ "Desktop" := mkProgram Desktop EmptyString;
                       "Terminal" := mkProgram Terminal ("cut" +:+ nl +:+ "paste") ]}
                    "Terminal" STANDARD_LIBRARY EmptyString)) [] None)
           _ ("cut" +:+ nl +:+ "paste") [("copy", EmptyString)]
           [("cut", EmptyString); ("paste", EmptyString)]);
    [reflexivity|reflexivity|vm_compute; reflexivity|reflexivity].
Defined.

(** C1 as stated fails: on the Desktop, [run] is looked up in the
    Desktop, which opens a note program named [run]; the buffer is not
    parsed and the remaining instructions stay. *)
Lemma run_keyword_counterexample :
  let state := initial_state Desktop STANDARD_LIBRARY EmptyString in
  let i := mkInterpreter [] [("run", EmptyString); ("rem", "x")]
             (Suspended state) [] None in
  current_buffer state = Ok EmptyString
  ∧ parse_logos EmptyString = Some []
  ∧ ∃ state',
      run_once no_power no_external None i =
      Done (mkInterpreter [] [("rem", "x")] (Suspended state')
              [("run", EmptyString)] (Some state'))
      ∧ current_program_name state' = "run"
      ∧ open_programs state' !! "run"
        = Some (mkProgram (Note "run" EmptyString) EmptyString).
Proof.
  split; [reflexivity|]. split; [reflexivity|].
  eexists. split; [reflexivity|]. split; [reflexivity|].
  simpl. apply lookup_insert_eq.
Qed.


Lemma current_program_stays_open_witness :
  let init := initial_state Desktop STANDARD_LIBRARY EmptyString in
  let state :=
    mkRuntimeState
      (<["Terminal" := mkProgram Terminal "cut"]> (open_programs init))
      "Terminal" STANDARD_LIBRARY EmptyString in
  reachable no_power no_external switch_to_open init state
  ∧ current_program_open state.
Proof.
  assert (reachable no_power no_external switch_to_open
            (initial_state Desktop STANDARD_LIBRARY EmptyString)
            (mkRuntimeState
               (<["Terminal" := mkProgram Terminal "cut"]>
                  (open_programs (initial_state Desktop STANDARD_LIBRARY EmptyString)))
               "Terminal" STANDARD_LIBRARY EmptyString)) as Hreach.
  { eapply reachable_step with (command_name := "Terminal") (command_args := "cut")
                                (changes := None);
      [apply reachable_init|discriminate|reflexivity]. }
  split; [exact Hreach|].
  exact (current_program_stays_open no_power no_external STANDARD_LIBRARY EmptyString _ Hreach).
Defined.

(** C4 as stated fails: [switch] sets the current program name to its
    argument whether or not a program of that name is open. *)
Lemma switch_counterexample :
  let init := initial_state Desktop STANDARD_LIBRARY EmptyString in
  let state := with_current_program_name init "nowhere" in
  reachable no_power no_external (λ _ _ _, True) init state
  ∧ open_programs state !! current_program_name state = None.
Proof.
  split.
  - eapply reachable_step with (command_name := "switch") (command_args := "nowhere")
                              (changes := None);
      [apply reachable_init|exact I|reflexivity].
  - reflexivity.
Qed.


(** * Further properties of the command parser *)

Lemma starts_line_end_false t :
  starts_line_end t = false → span_newlines t = (EmptyString, t).
Proof.
  unfold starts_line_end, match_terminal.
  destruct (span_newlines t) as [a r] eqn:E. destruct a; [|done]. intros _.
  apply span_newlines_app in E. rewrite app_empty_l in E. by subst.
Qed.

Lemma is_newlines_head c s : is_newlines (String c s) = true → is_line_break c = true.
Proof.
  unfold is_newlines. simpl. repeat case_bool_decide; subst; done.
Qed.

Lemma span_newlines_run_below n : ∀ line_ends t,
  String.length line_ends < n → is_newlines line_ends = true →
  span_newlines t = (EmptyString, t) →
  span_newlines (line_ends +:+ t) = (line_ends, t).
Proof.
  induction n as [|n IH]; intros line_ends t Hn Hrun Ht; [lia|].
  destruct line_ends as [|c s]; [by rewrite app_empty_l|].
  unfold is_newlines in Hrun. rewrite app_String.
  cbn [span_newlines] in *. simpl in Hn. case_bool_decide.
  - destruct (span_newlines s) as [a r] eqn:E. destruct r; [|done].
    rewrite (IH s t); [done|lia| |done]. unfold is_newlines. by rewrite E.
  - case_bool_decide; [|done]. destruct s as [|c' s']; [done|].
    rewrite app_String. case_bool_decide; [|done].
    destruct (span_newlines s') as [a r] eqn:E. destruct r; [|done].
    rewrite (IH s' t); [done|simpl in Hn; lia| |done].
    unfold is_newlines. by rewrite E.
Qed.

Lemma lex_line_end ts line_ends t :
  is_newlines line_ends = true → line_ends ≠ EmptyString →
  starts_line_end t = false →
  lex (T_NEWLINE :: ts) (line_ends +:+ t) = Some (T_NEWLINE, line_ends, t).
Proof.
  intros Hrun Hne Ht. unfold lex, match_terminal.
  rewrite (span_newlines_run_below (S (String.length line_ends)));
    [by destruct line_ends|lia|done|by apply starts_line_end_false].
Qed.

Lemma lex_name n u :
  n ≠ EmptyString → string_forall (λ c, negb (is_whitespace c)) n = true →
  stops (λ c, negb (is_whitespace c)) u = true →
  lex (accepts AtLine) (n +:+ u) = Some (T_NAME, n, u).
Proof.
  intros Hn Hws Hu.
  destruct (name_first_char n Hn Hws) as (c & n' & Heq & Hc).
  unfold accepts, lex.
  replace (match_terminal T_NEWLINE (n +:+ u)) with (@None (string * string))
    by (rewrite Heq, app_String; symmetry; by apply not_whitespace_not_newline).
  unfold match_terminal. by rewrite regex_plus_exact.
Qed.

Lemma stops_line_break_whitespace u :
  stops (λ c, negb (is_line_break c)) u = true →
  stops (λ c, negb (is_whitespace c)) u = true.
Proof.
  destruct u as [|c u]; [done|]. simpl. rewrite !negb_involutive.
  unfold is_line_break, is_whitespace.
  destruct c as [[] [] [] [] [] [] [] []]; done.
Qed.

(** A command is read up to the line end after it. *)
Lemma parse_from_command items i u :
  valid_instruction i = true →
  stops (λ c, negb (is_line_break c)) u = true →
  parse_from AtLine items (serialize_instruction i +:+ u)
  = parse_from (after_command i) items u.
Proof.
  destruct i as [n a]. intros (Hn & Hws & Hlb)%valid_instruction_elim Hu.
  destruct a as [|c0 a0].
  - simpl serialize_instruction.
    erewrite parse_from_step;
      [done|apply lex_name; [done..|by apply stops_line_break_whitespace]|reflexivity].
  - set (a := String c0 a0) in *. simpl serialize_instruction.
    rewrite !app_assoc_string.
    erewrite parse_from_step; [|by apply lex_name|reflexivity].
    erewrite parse_from_step; [|reflexivity|reflexivity].
    erewrite (parse_from_step (AfterSpace n) items (a +:+ u) T_ARGS a u);
      [done|unfold accepts, lex, match_terminal; by rewrite regex_plus_exact
       |reflexivity].
Qed.

Lemma pending_after_command i : pending (after_command i) = Some i.
Proof. by destruct i as [n [|c a]]. Qed.

(** Line ends close the command that was read. *)
Lemma parse_from_line_ends st items line_ends t :
  (∀ n, st ≠ AfterSpace n) →
  is_newlines line_ends = true → line_ends ≠ EmptyString →
  starts_line_end t = false →
  parse_from st items (line_ends +:+ t)
  = parse_from AtLine (items ++ [pending st]) t.
Proof.
  intros Hst Hrun Hne Ht.
  destruct st as [|n|n|n a]; [| |by destruct (Hst n)|];
    (eapply parse_from_step; [by apply lex_line_end|reflexivity]).
Qed.

Lemma starts_line_end_command i u :
  valid_instruction i = true → starts_line_end (serialize_instruction i +:+ u) = false.
Proof.
  destruct i as [n a]. intros (Hn & Hws & _)%valid_instruction_elim.
  destruct (name_first_char n Hn Hws) as (c & n' & -> & Hc).
  unfold starts_line_end.
  destruct a; simpl serialize_instruction; rewrite ?app_String;
    by rewrite not_whitespace_not_newline.
Qed.

Lemma valid_line_elim i line_ends :
  valid_line (i, line_ends) = true →
  valid_instruction i = true ∧ is_newlines line_ends = true ∧ line_ends ≠ EmptyString.
Proof.
  unfold valid_line. simpl. intros [[Hi Hrun]%andb_prop Hne]%andb_prop.
  split; [done|]. split; [done|]. apply negb_true_iff in Hne.
  by apply bool_decide_eq_false in Hne.
Qed.

Lemma parse_from_valid_line items i line_ends t :
  valid_line (i, line_ends) = true → starts_line_end t = false →
  parse_from AtLine items (serialize_instruction i +:+ line_ends +:+ t)
  = parse_from AtLine (items ++ [Some i]) t.
Proof.
  intros (Hi & Hrun & Hne)%valid_line_elim Ht.
  rewrite parse_from_command; [|done|].
  - rewrite parse_from_line_ends, pending_after_command; [done| |done..].
    intros n. by destruct i as [? [|? ?]].
  - destruct line_ends as [|c s]; [done|]. rewrite app_String. simpl.
    by rewrite (is_newlines_head c s).
Qed.

Lemma starts_line_end_join_lines lines t :
  Forall (λ line, valid_line line = true) lines → starts_line_end t = false →
  starts_line_end (join_lines lines +:+ t) = false.
Proof.
  intros Hlines Ht. destruct lines as [|[i line_ends] lines]; [done|].
  apply Forall_cons in Hlines as [(Hi & _)%valid_line_elim _].
  simpl join_lines. rewrite app_assoc_string. by apply starts_line_end_command.
Qed.

Lemma parse_from_join_lines lines : ∀ items t,
  Forall (λ line, valid_line line = true) lines → starts_line_end t = false →
  parse_from AtLine items (join_lines lines +:+ t)
  = parse_from AtLine (items ++ (Some <$> lines.*1)) t.
Proof.
  induction lines as [|[i line_ends] lines IH]; intros items t Hlines Ht.
  - simpl. by rewrite app_empty_l, app_nil_r.
  - apply Forall_cons in Hlines as [Hline Hlines].
    simpl join_lines. rewrite !app_assoc_string.
    rewrite parse_from_valid_line;
      [|done|by apply starts_line_end_join_lines].
    rewrite IH by done. simpl. by rewrite <- app_assoc.
Qed.

Lemma program_app items items' :
  TreeParser.program (items ++ items')
  = TreeParser.program items ++ TreeParser.program items'.
Proof. apply omap_app. Qed.

(** The blank lines and the lines at the head of a text are read, and the
    parser goes on at the start of a line. *)
Lemma parse_from_lines blank_lines lines t :
  is_newlines blank_lines = true →
  Forall (λ line, valid_line line = true) lines → starts_line_end t = false →
  ∃ items,
    TreeParser.program items = lines.*1
    ∧ parse_from AtLine [] (blank_lines +:+ join_lines lines +:+ t)
      = parse_from AtLine items t.
Proof.
  intros Hrun Hlines Ht.
  destruct (decide (blank_lines = EmptyString)) as [->|Hne].
  - exists ([] ++ (Some <$> lines.*1)). split.
    + by rewrite program_app, program_fmap_Some.
    + rewrite app_empty_l. by apply parse_from_join_lines.
  - exists ([None] ++ (Some <$> lines.*1)). split.
    + by rewrite program_app, program_fmap_Some.
    + rewrite parse_from_line_ends;
        [|done|done|done|by apply starts_line_end_join_lines].
      by apply parse_from_join_lines.
Qed.

Lemma parse_logos_parse_from text :
  parse_logos text = TreeParser.program <$> parse_from AtLine [] text.
Proof. unfold parse_logos. case_bool_decide; by subst. Qed.

Lemma parse_from_last items last :
  (∀ i, last = Some i → valid_instruction i = true) →
  parse_from AtLine items (from_option serialize_instruction EmptyString last)
  = Some (items ++ (Some <$> option_list last)).
Proof.
  intros Hlast. destruct last as [i|]; simpl.
  - rewrite <- (app_empty_r (serialize_instruction i)).
    by rewrite (parse_from_line items i _ None (Hlast i eq_refl) line_end_eof).
  - by rewrite parse_from_end, app_nil_r.
Qed.

Lemma parse_logos_program_text blank_lines lines last :
  is_newlines blank_lines = true →
  Forall (λ line, valid_line line = true) lines →
  (∀ i, last = Some i → valid_instruction i = true) →
  parse_logos (program_text blank_lines lines last)
  = Some (lines.*1 ++ option_list last).
Proof.
  intros Hrun Hlines Hlast. rewrite parse_logos_parse_from. unfold program_text.
  destruct (parse_from_lines blank_lines lines
              (from_option serialize_instruction EmptyString last))
    as (items & Hitems & ->); [done|done| |].
  - destruct last as [i|]; [|done]. simpl.
    rewrite <- (app_empty_r (serialize_instruction i)).
    by apply starts_line_end_command, Hlast.
  - rewrite parse_from_last by done. simpl.
    by rewrite program_app, Hitems, program_fmap_Some.
Qed.

(** X13.  The texts of the grammar [program: line* command?] parse to
    their instructions: after any blank lines, each instruction on its
    line, closed by one or more line ends (line feeds, each with or
    without a carriage return before it), and a last instruction that
    needs no line end.  Blank lines and the kind of line end make no
    difference to the result. *)
Theorem program_text_parses (blank_lines : string)
    (lines : list (Instruction * string)) (last : option Instruction) :
  is_newlines blank_lines = true →
  Forall (λ line, valid_line line = true) lines →
  (∀ i, last = Some i → valid_instruction i = true) →
  parse_logos (program_text blank_lines lines last)
  = Some (lines.*1 ++ option_list last).
Proof. apply parse_logos_program_text. Qed.

(** X14.  The lists [parse_logos] can return are the lists of valid
    instructions, no more and no fewer: a name that is not empty and has
    no white space, and arguments without a line break. *)
Theorem parse_logos_returns_the_valid_lists (instructions : list Instruction) :
  (∃ text, parse_logos text = Some instructions)
  ↔ Forall (λ i, valid_instruction i = true) instructions.
Proof.
  split.
  - intros [text Hparse]. by eapply parse_logos_valid.
  - intros Hvalid. exists (serialize instructions). by apply parse_logos_serialize.
Qed.

Lemma parse_logos_after_lines blank_lines lines t :
  is_newlines blank_lines = true →
  Forall (λ line, valid_line line = true) lines →
  starts_line_end t = false →
  (∀ items, parse_from AtLine items t = None) →
  parse_logos (blank_lines +:+ join_lines lines +:+ t) = None.
Proof.
  intros Hrun Hlines Ht Hnone. rewrite parse_logos_parse_from.
  destruct (parse_from_lines blank_lines lines t) as (items & _ & ->); [done..|].
  by rewrite Hnone.
Qed.

Lemma parse_from_indented items c s :
  is_whitespace c = true → starts_line_end (String c s) = false →
  parse_from AtLine items (String c s) = None.
Proof.
  intros Hc Hs. apply parse_from_stuck; [done|].
  unfold starts_line_end in Hs. unfold accepts, lex.
  destruct (match_terminal T_NEWLINE (String c s)); [done|].
  unfold match_terminal, regex_plus. simpl. by rewrite Hc.
Qed.

(** X15.  A line may not be indented: when a line starts with white
    space that is no line end (a space, a tab, a lone carriage return
    and so on), the text does not parse, whatever follows. *)
Theorem indented_line_is_an_error (blank_lines : string)
    (lines : list (Instruction * string)) (c : ascii) (s : string) :
  is_newlines blank_lines = true →
  Forall (λ line, valid_line line = true) lines →
  is_whitespace c = true → starts_line_end (String c s) = false →
  parse_logos (blank_lines +:+ join_lines lines +:+ String c s) = None.
Proof.
  intros Hrun Hlines Hc Hs. apply parse_logos_after_lines; [done..|].
  intros items. by apply parse_from_indented.
Qed.

Lemma parse_from_lone_space items n u :
  n ≠ EmptyString → string_forall (λ c, negb (is_whitespace c)) n = true →
  stops (λ c, negb (is_line_break c)) u = true →
  parse_from AtLine items (n +:+ " " +:+ u) = None.
Proof.
  intros Hn Hws Hu.
  erewrite parse_from_step; [|by apply lex_name|reflexivity].
  erewrite parse_from_step; [|reflexivity|reflexivity].
  destruct u as [|c u]; [done|]. apply parse_from_stuck; [done|].
  simpl in Hu. apply negb_true_iff, negb_false_iff in Hu.
  unfold accepts, lex, match_terminal, regex_plus. simpl.
  rewrite Hu. simpl. destruct c as [[] [] [] [] [] [] [] []]; done.
Qed.

Lemma parse_logos_lone_space blank_lines lines n u :
  is_newlines blank_lines = true →
  Forall (λ line, valid_line line = true) lines →
  n ≠ EmptyString → string_forall (λ c, negb (is_whitespace c)) n = true →
  stops (λ c, negb (is_line_break c)) u = true →
  parse_logos (blank_lines +:+ join_lines lines +:+ n +:+ " " +:+ u) = None.
Proof.
  intros Hrun Hlines Hn Hws Hu. apply parse_logos_after_lines; [done..| |].
  - apply (starts_line_end_command (n, EmptyString)).
    by apply valid_instruction_intro.
  - intros items. by apply parse_from_lone_space.
Qed.

(** X16.  One space after a command name promises arguments: a name
    followed by exactly one space and then the end of the line or of the
    text does not parse.  (With two or more spaces the further spaces are
    the arguments.) *)
Theorem lone_space_after_name_is_an_error (blank_lines : string)
    (lines : list (Instruction * string)) (n u : string) :
  is_newlines blank_lines = true →
  Forall (λ line, valid_line line = true) lines →
  n ≠ EmptyString → string_forall (λ c, negb (is_whitespace c)) n = true →
  stops (λ c, negb (is_line_break c)) u = true →
  parse_logos (blank_lines +:+ join_lines lines +:+ n +:+ " " +:+ u) = None
  ∧ parse_logos (blank_lines +:+ join_lines lines +:+ n +:+ "  ")
    = Some (lines.*1 ++ [(n, " ")]).
Proof.
  intros Hrun Hlines Hn Hws Hu. split; [by apply parse_logos_lone_space|].
  apply (parse_logos_program_text blank_lines lines (Some (n, " "))); [done..|].
  intros i [= <-]. by apply valid_instruction_intro.
Qed.

(** * Further properties of the dispatcher and the keywords *)

Ltac handler_unfold :=
  unfold rem, _equals, _append_and_equals in *;
  unfold functional_command, cut, copy, paste, name, execute, _run, _append,
    _compile, program_opener, minimise, switch,
    current_buffer, clear_buffer, set_current_buffer, current_program,
    current_program_open, with_clipboard, with_open_programs,
    with_current_program_name in *;
  simpl in *;
  repeat (first [ progress simplify_eq/= | case_match | case_bool_decide ]).

Lemma program_eta p : mkProgram (program_class p) (buffer p) = p.
Proof. by destruct p. Qed.

Lemma state_eta state :
  mkRuntimeState (open_programs state) (current_program_name state)
    (library state) (clipboard state) = state.
Proof. by destruct state. Qed.

Lemma current_buffer_open state p :
  open_programs state !! current_program_name state = Some p →
  current_buffer state = Ok (buffer p).
Proof. intros H. unfold current_buffer, current_program. by rewrite H. Qed.

Lemma set_current_buffer_open state p b :
  open_programs state !! current_program_name state = Some p →
  set_current_buffer state b =
  Ok (with_open_programs state
        (<[current_program_name state := mkProgram (program_class p) b]>
           (open_programs state))).
Proof. intros H. unfold set_current_buffer, current_program. by rewrite H. Qed.

Lemma cut_open args state p :
  args = EmptyString ∨ args = "all" →
  open_programs state !! current_program_name state = Some p →
  cut args state =
  Returns None
    (mkRuntimeState
       (<[current_program_name state := mkProgram (program_class p) EmptyString]>
          (open_programs state))
       (current_program_name state) (library state) (buffer p)).
Proof.
  intros Hargs Hp. unfold cut.
  replace (bool_decide (args = EmptyString) || bool_decide (args = "all")) with true
    by (destruct Hargs as [-> | ->]; done).
  simpl. rewrite (current_buffer_open _ _ Hp).
  unfold clear_buffer. rewrite (set_current_buffer_open _ p) by done. done.
Qed.

Lemma get_string_forall p s : ∀ n c,
  String.get n s = Some c → string_forall p s = true → p c = true.
Proof.
  induction s as [|c' s IH]; intros n c; simpl; [done|].
  intros Hget [Hc Hs]%andb_prop. destruct n as [|n]; [by simplify_eq|].
  by eapply IH.
Qed.

Lemma ends_with_space_word s :
  string_forall (λ c, negb (is_whitespace c)) s = true → ends_with_space s = false.
Proof.
  intros Hs. unfold ends_with_space. destruct (String.length s) as [|n]; [done|].
  apply bool_decide_eq_false. intros Hget.
  by apply (get_string_forall _ _ _ _ Hget) in Hs.
Qed.

Section RuntimeExtras.

Variable power_other : Decimal → Decimal → result Decimal.
Variable external : ProgramClass → string → string → string → result string.

(** X1.  [rem], whatever its arguments, leaves the whole state as it is
    when the current program is open, and raises [KeyError] when it is
    not: it reads and writes back the current buffer. *)
Theorem rem_changes_nothing (args : string) (state : RuntimeState) :
  dispatch power_other external "rem" args state =
  match open_programs state !! current_program_name state with
  | Some _ => Returns None state
  | None => Raises (KeyError (current_program_name state)) state
  end.
Proof.
  change (dispatch power_other external "rem" args state) with (rem args state).
  unfold rem, functional_command, current_buffer, set_current_buffer, current_program.
  destruct (open_programs state !! current_program_name state) as [p|] eqn:E; simpl.
  - rewrite program_eta, insert_id by done.
    unfold with_open_programs. by rewrite state_eta.
  - done.
Qed.

(** X2.  [cut] and then [paste] give back the buffer: after [cut] the
    buffer is empty and the clipboard holds the text, and after [paste]
    the state is the first one but for the clipboard, which holds the
    text. *)
Theorem cut_then_paste_restores (args : string) (state : RuntimeState) (p : Program) :
  args = EmptyString ∨ args = "all" →
  open_programs state !! current_program_name state = Some p →
  ∃ state1,
    dispatch power_other external "cut" args state = Returns None state1
    ∧ current_buffer state1 = Ok EmptyString
    ∧ clipboard state1 = buffer p
    ∧ dispatch power_other external "paste" EmptyString state1
      = Returns None (with_clipboard state (buffer p)).
Proof.
  intros Hargs Hp.
  change (dispatch power_other external "cut" args state) with (cut args state).
  rewrite (cut_open _ _ _ Hargs Hp). eexists. split; [done|].
  split; [by erewrite current_buffer_open; [|apply lookup_insert_eq]|].
  split; [done|].
  change (dispatch power_other external "paste" EmptyString ?s) with (paste EmptyString s).
  unfold paste. simpl.
  erewrite set_current_buffer_open; [|apply lookup_insert_eq].
  simpl. unfold with_open_programs, with_clipboard. simpl.
  rewrite insert_insert_eq, program_eta, insert_id by done. done.
Qed.

(** X3.  In an Editor, [cut] and then [append the clipboard] also give
    back the buffer, and leave the clipboard empty. *)
Theorem cut_then_append_restores (args : string) (state : RuntimeState) (b : string) :
  args = "the clipboard" ∨ args = "from clipboard" →
  open_programs state !! current_program_name state = Some (mkProgram Editor b) →
  ∃ state1,
    dispatch power_other external "cut" EmptyString state = Returns None state1
    ∧ dispatch power_other external "append" args state1
      = Returns None (with_clipboard state EmptyString).
Proof.
  intros Hargs Hp.
  change (dispatch power_other external "cut" EmptyString state)
    with (cut EmptyString state).
  rewrite (cut_open _ _ _ (or_introl eq_refl) Hp). eexists. split; [done|].
  unfold dispatch. simpl. unfold current_program. simpl.
  rewrite lookup_insert_eq. simpl.
  unfold _append.
  replace (bool_decide (args = "the clipboard") || bool_decide (args = "from clipboard"))
    with true by (destruct Hargs as [-> | ->]; done).
  simpl. erewrite current_buffer_open; [|apply lookup_insert_eq].
  erewrite set_current_buffer_open; [|apply lookup_insert_eq].
  simpl. unfold with_open_programs, with_clipboard. simpl.
  rewrite insert_insert_eq.
  change (mkProgram Editor b) with (mkProgram Editor (EmptyString +:+ b)) in Hp.
  by rewrite insert_id.
Qed.

(** X4.  Once the current program name is not a key of the open programs
    (after a [switch] to a name that is not open), every command but
    [minimise], [switch] and [execute] raises, and the state stays as it
    is. *)
Theorem dangling_name_fails (command_name args : string) (state : RuntimeState) :
  open_programs state !! current_program_name state = None →
  command_name ≠ "minimise" → command_name ≠ "switch" → command_name ≠ "execute" →
  ∃ e, dispatch power_other external command_name args state = Raises e state
       ∧ (e = AssertionError ∨ e = KeyError (current_program_name state)).
Proof.
  intros Hnone Hmin Hsw Hex. unfold dispatch, current_program. rewrite Hnone.
  unfold KEYWORDS. simpl.
  repeat (case_bool_decide; subst;
          [unfold rem, functional_command, cut, copy, paste, name, current_buffer,
             set_current_buffer, clear_buffer, current_program; simpl;
           rewrite ?Hnone; simpl;
           repeat case_match; simplify_eq; eauto|]); try done.
  eauto.
Qed.

Ltac same_class :=
  match goal with
  | H : ?m !! ?k = Some ?p |- ∃ b, ?m !! ?k = Some _ =>
      exists (buffer p); by rewrite program_eta
  end.

Ltac classes_cases :=
  try done;
  split; [done|]; intros ? ? ?; rewrite ?lookup_insert; repeat case_decide;
  simplify_eq; eauto; try same_class.

Lemma functional_command_keeps_classes f : keeps_classes (functional_command f).
Proof. intros args state changes state' H. handler_unfold. classes_cases. Qed.

Lemma commands_keep_classes cls :
  Forall (λ kv, keeps_classes kv.2) (_commands power_other external cls).
Proof.
  destruct cls; simpl; repeat (apply Forall_cons; split);
    try (by apply Forall_nil); simpl;
    try apply functional_command_keeps_classes;
    intros args state ? state' H; handler_unfold; classes_cases.
Qed.

Lemma keywords_keep_classes : Forall (λ kv, keeps_classes kv.2) KEYWORDS.
Proof.
  unfold KEYWORDS. repeat (apply Forall_cons; split); try (by apply Forall_nil);
    simpl; intros args state ? state' H; handler_unfold; classes_cases.
Qed.

(** X5.  No command changes the library, closes a program or changes the
    class of an open program: after a command that returns, every
    program that was open is open under the same name with the same
    class. *)
Theorem commands_keep_library_and_classes (command_name args : string)
    (state state' : RuntimeState) (changes : option StreamTransform) :
  dispatch power_other external command_name args state = Returns changes state' →
  library state' = library state
  ∧ ∀ k p, open_programs state !! k = Some p →
      ∃ b, open_programs state' !! k = Some (mkProgram (program_class p) b).
Proof.
  unfold dispatch.
  destruct (lookup_item command_name KEYWORDS) as [h|] eqn:Hk.
  - apply (lookup_item_Forall (λ _ h, keeps_classes h) _ _ _ keywords_keep_classes Hk).
  - destruct (current_program state) as [p|]; [|done].
    unfold get_command.
    pose proof (commands_keep_classes (program_class p)) as Hc.
    assert (∀ h, lookup_item command_name
                   (_commands power_other external (program_class p)) = Some h →
                 keeps_classes h) as Hl.
    { intros h Hh.
      exact (lookup_item_Forall (λ _ h, keeps_classes h) _ _ _ Hc Hh). }
    destruct (program_class p);
      try (destruct (lookup_item command_name (_commands _ _ _)) as [h|] eqn:Hh;
           simpl; [|done]; intros H; exact (Hl h eq_refl _ _ _ _ H)).
    + intros H. unfold program_opener in H. case_bool_decide as Hopen; [done|].
      simplify_eq. simpl. split; [done|]. intros k p' Hk'.
      rewrite lookup_insert. case_decide; simplify_eq.
      * exfalso. apply Hopen. eauto.
      * same_class.
    + simpl. done.
Qed.

Lemma commands_change cls :
  Forall (λ kv, no_change kv.2 ∨ (cls = Terminal ∧ kv.1 = "run" ∧ kv.2 = _run))
    (_commands power_other external cls).
Proof.
  destruct cls; simpl; repeat (apply Forall_cons; split);
    try (by apply Forall_nil); simpl; try (by right);
    left; intros args state ? state' H; by handler_unfold.
Qed.

Lemma keywords_change :
  Forall (λ kv, no_change kv.2 ∨ (kv.1 = "execute" ∧ kv.2 = execute)) KEYWORDS.
Proof.
  unfold KEYWORDS. repeat (apply Forall_cons; split); try (by apply Forall_nil);
    simpl; try (by right);
    left; intros args state ? state' H; by handler_unfold.
Qed.

Lemma dispatch_change command_name args state state' change :
  dispatch power_other external command_name args state = Returns (Some change) state' →
  (command_name = "execute" ∧ prepends_at_most_one change ∧ state' = state)
  ∨ (command_name = "run" ∧ replaces_all change
     ∧ ∃ b, open_programs state !! current_program_name state
            = Some (mkProgram Terminal b)).
Proof.
  unfold dispatch.
  destruct (lookup_item command_name KEYWORDS) as [h|] eqn:Hk.
  - destruct (lookup_item_Forall
                (λ k h, no_change h ∨ (k = "execute" ∧ h = execute))
                _ _ _ keywords_change Hk) as [Hno|[-> ->]].
    { intros H. by apply Hno in H. }
    intros H. left. split; [done|]. unfold execute in H.
    destruct (parse_logos _) as [l|]; [|done]. simplify_eq.
    split; [|done]. exists (take 1 l). split; [|done].
    rewrite length_take. lia.
  - unfold current_program.
    destruct (open_programs state !! current_program_name state) as [p|] eqn:Hp; [|done].
    unfold get_command. pose proof (commands_change (program_class p)) as Hc.
    assert (∀ h, lookup_item command_name
                   (_commands power_other external (program_class p)) = Some h →
                 no_change h
                 ∨ (program_class p = Terminal ∧ command_name = "run" ∧ h = _run)) as Hl.
    { intros h Hh.
      exact (lookup_item_Forall
               (λ k h, no_change h ∨ (program_class p = Terminal ∧ k = "run" ∧ h = _run))
               _ _ _ Hc Hh). }
    destruct p as [cls b]. cbn [program_class] in *.
    destruct cls;
      try (destruct (lookup_item command_name (_commands _ _ _)) as [h|] eqn:Hh;
           simpl; [|done];
           destruct (Hl h eq_refl) as [Hno|(Hcls & -> & ->)];
           [intros Hr; by apply Hno in Hr|try done]).
    + intros Hr. by handler_unfold.
    + intros Hr. right. split; [done|]. split; [|by eauto].
      unfold _run in Hr. repeat case_match; simplify_eq. by eexists.
    + simpl. done.
Qed.

(** X6.  Only [execute] and the Terminal's [run] change the remaining
    code: [execute] puts at most one instruction in front of it and
    leaves the state, [run] replaces all of it; every other command that
    returns leaves the code. *)
Theorem only_execute_and_run_change_the_code (command_name args : string)
    (state state' : RuntimeState) (change : StreamTransform) :
  dispatch power_other external command_name args state = Returns (Some change) state' →
  (command_name = "execute" ∧ prepends_at_most_one change ∧ state' = state)
  ∨ (command_name = "run" ∧ replaces_all change
     ∧ ∃ b, open_programs state !! current_program_name state
            = Some (mkProgram Terminal b)).
Proof. apply dispatch_change. Qed.

Lemma dispatch_no_change command_name args state changes state' :
  command_name ≠ "execute" → command_name ≠ "run" →
  dispatch power_other external command_name args state = Returns changes state' →
  changes = None.
Proof.
  intros Hex Hrun H. destruct changes as [change|]; [|done].
  apply dispatch_change in H as [[? _]|[? _]]; done.
Qed.

Lemma dispatch_returns_handler (P : string → Handler → Prop)
    command_name args state changes state' :
  Forall (λ kv, P kv.1 kv.2) KEYWORDS →
  (∀ cls, Forall (λ kv, P kv.1 kv.2) (_commands power_other external cls)) →
  P command_name (program_opener command_name) →
  dispatch power_other external command_name args state = Returns changes state' →
  ∃ h, P command_name h ∧ h args state = Returns changes state'.
Proof.
  intros Hkw Hcmd Hopen. unfold dispatch.
  destruct (lookup_item command_name KEYWORDS) as [h|] eqn:Hk.
  { intros Hr. exists h. split; [|done]. by eapply lookup_item_Forall. }
  destruct (current_program state) as [p|]; [|done].
  unfold get_command. specialize (Hcmd (program_class p)).
  assert (∀ h, lookup_item command_name
                 (_commands power_other external (program_class p)) = Some h →
               P command_name h) as Hl.
  { intros h Hh. by eapply lookup_item_Forall. }
  destruct (program_class p);
    try (destruct (lookup_item command_name (_commands _ _ _)) as [h|] eqn:Hh;
         simpl; [|done]; intros Hr; exists h; split; [by apply Hl|done]).
  intros Hr. by eexists.
Qed.

Ltac others_cases :=
  try done;
  intros ? ? ? ?; rewrite ?lookup_insert; repeat case_decide; simplify_eq; eauto.

Lemma keywords_keep_others : Forall (λ kv, keeps_others kv.2) KEYWORDS.
Proof.
  unfold KEYWORDS. repeat (apply Forall_cons; split); try (by apply Forall_nil);
    simpl; intros args state ? state' H; handler_unfold; others_cases.
Qed.

Lemma commands_keep_others cls :
  Forall (λ kv, keeps_others kv.2) (_commands power_other external cls).
Proof.
  destruct cls; simpl; repeat (apply Forall_cons; split);
    try (by apply Forall_nil); simpl;
    intros args state ? state' H; handler_unfold; others_cases.
Qed.

Lemma program_opener_keeps_others k : keeps_others (program_opener k).
Proof.
  intros args state ? state' H. unfold program_opener in H.
  case_bool_decide as Hopen; [done|]. simplify_eq. simpl.
  intros k' p' Hne Hp'. rewrite lookup_insert. case_decide; simplify_eq; [|done].
  exfalso. apply Hopen. eauto.
Qed.

(** X7.  A command writes to the current program only: after a command
    that returns, every other open program is as it was, buffer
    included. *)
Theorem commands_touch_the_current_program_only (command_name args : string)
    (state state' : RuntimeState) (changes : option StreamTransform)
    (k : string) (p : Program) :
  dispatch power_other external command_name args state = Returns changes state' →
  k ≠ current_program_name state →
  open_programs state !! k = Some p →
  open_programs state' !! k = Some p.
Proof.
  intros Hd.
  apply (dispatch_returns_handler (λ _ h, keeps_others h)) in Hd as (h & Hh & Hr).
  - by eapply Hh.
  - apply keywords_keep_others.
  - apply commands_keep_others.
  - apply program_opener_keeps_others.
Qed.

Lemma keywords_keep_clipboard : Forall (λ kv, keeps_clipboard kv.1 kv.2) KEYWORDS.
Proof.
  unfold KEYWORDS. repeat (apply Forall_cons; split); try (by apply Forall_nil);
    simpl; intros args state ? state' H ? ? ?; by handler_unfold.
Qed.

Lemma commands_keep_clipboard cls :
  Forall (λ kv, keeps_clipboard kv.1 kv.2) (_commands power_other external cls).
Proof.
  destruct cls; simpl; repeat (apply Forall_cons; split);
    try (by apply Forall_nil); simpl;
    intros args state ? state' H ? ? ?; by handler_unfold.
Qed.

(** X8.  Only [cut], [copy] and the Editor's [append] write the
    clipboard: after any other command that returns, the clipboard is
    as it was. *)
Theorem clipboard_written_by_cut_copy_append_only (command_name args : string)
    (state state' : RuntimeState) (changes : option StreamTransform) :
  dispatch power_other external command_name args state = Returns changes state' →
  command_name ≠ "cut" → command_name ≠ "copy" → command_name ≠ "append" →
  clipboard state' = clipboard state.
Proof.
  intros Hd.
  apply (dispatch_returns_handler keeps_clipboard) in Hd as (h & Hh & Hr).
  - by eapply Hh.
  - apply keywords_keep_clipboard.
  - apply commands_keep_clipboard.
  - intros a s ? s' H ? ? ?. by handler_unfold.
Qed.

Lemma keywords_move_as_named : Forall (λ kv, moves_as_named kv.1 kv.2) KEYWORDS.
Proof.
  unfold KEYWORDS. repeat (apply Forall_cons; split); try (by apply Forall_nil);
    simpl; intros args state ? state' H; handler_unfold; eauto.
Qed.

Lemma commands_move_as_named cls :
  Forall (λ kv, moves_as_named kv.1 kv.2) (_commands power_other external cls).
Proof.
  destruct cls; simpl; repeat (apply Forall_cons; split);
    try (by apply Forall_nil); simpl;
    intros args state ? state' H; handler_unfold; eauto.
Qed.

Lemma program_opener_moves_as_named k : moves_as_named k (program_opener k).
Proof.
  intros args state ? state' H. unfold program_opener in H.
  case_bool_decide as Hopen; [done|]. simplify_eq. simpl.
  right. right. right. split; [done|]. split.
  - destruct (open_programs state !! k) eqn:E; [|done]. exfalso. eauto.
  - rewrite lookup_insert_eq. eauto.
Qed.

(** X9.  The current program changes in three ways only: [minimise]
    makes it the Desktop, [switch] makes it the program its argument
    names, and a command that opens a program (one that was not open)
    makes it that program.  After every other command that returns it
    is as it was. *)
Theorem current_program_changes_three_ways (command_name args : string)
    (state state' : RuntimeState) (changes : option StreamTransform) :
  dispatch power_other external command_name args state = Returns changes state' →
  current_program_name state' = current_program_name state
  ∨ (command_name = "minimise" ∧ current_program_name state' = "Desktop")
  ∨ (command_name = "switch" ∧ current_program_name state' = args)
  ∨ (current_program_name state' = command_name
     ∧ open_programs state !! command_name = None
     ∧ is_Some (open_programs state' !! command_name)).
Proof.
  intros Hd.
  apply (dispatch_returns_handler moves_as_named) in Hd as (h & Hh & Hr).
  - by eapply Hh.
  - apply keywords_move_as_named.
  - apply commands_move_as_named.
  - apply program_opener_moves_as_named.
Qed.

(** ** The interpreter's loop *)

Lemma run_once_head i command args rest :
  remaining_code i = (command, args) :: rest →
  run_once power_other external None i =
  match runtime i with
  | Finished =>
      Failed (Plain StopIteration)
        (mkInterpreter (source i) rest Finished (history i ++ [(command, args)])
           (most_recent_state i))
  | Suspended state =>
      match dispatch power_other external command args state with
      | Returns changes state' =>
          Done (mkInterpreter (source i)
                  (match changes with Some change => change rest | None => rest end)
                  (Suspended state') (history i ++ [(command, args)]) (Some state'))
      | Raises e state' =>
          Failed (Fatal (mkInterpreterError command args state' e))
            (mkInterpreter (source i) rest Finished (history i ++ [(command, args)])
               (most_recent_state i))
      end
  end.
Proof.
  intros Hcode. unfold run_once, fetch, send. rewrite Hcode.
  destruct (runtime i) as [state|]; [|done].
  by destruct (dispatch power_other external command args state).
Qed.

Lemma run_all_cons fuel i c rest :
  remaining_code i = c :: rest →
  run_all power_other external (S fuel) i =
  match run_once power_other external None i with
  | Done i' => run_all power_other external fuel i'
  | Failed e i' => Some (Failed e i')
  end.
Proof. intros Hcode. simpl. by rewrite Hcode. Qed.

Lemma run_all_outcome fuel i o :
  run_all power_other external fuel i = Some o →
  source (interpreter_after o) = source i
  ∧ history i `prefix_of` history (interpreter_after o)
  ∧ match o with
    | Done i' => remaining_code i' = []
    | Failed e i' =>
        runtime i' = Finished ∧ (e = Plain StopIteration ∨ ∃ ie, e = Fatal ie)
    end.
Proof.
  revert i. induction fuel as [|fuel IH]; intros i.
  - simpl. destruct (remaining_code i) eqn:Hcode; [|done]. by intros [= <-].
  - destruct (remaining_code i) as [|[command args] rest] eqn:Hcode.
    { simpl. rewrite Hcode. by intros [= <-]. }
    rewrite (run_all_cons _ _ _ _ Hcode), (run_once_head _ _ _ _ Hcode).
    destruct (runtime i) as [state|].
    + destruct (dispatch power_other external command args state)
        as [changes state'|e state'].
      * intros (Hs & Hh & Ho)%IH. simpl in *. split; [done|]. split; [|done].
        etrans; [|done]. by apply prefix_app_r.
      * intros [= <-]. simpl. split; [done|]. split; [by apply prefix_app_r|].
        split; [done|]. right. by eexists.
    + intros [= <-]. simpl. split; [done|]. split; [by apply prefix_app_r|].
      split; [done|]. by left.
Qed.

(** X10.  What [run_all] leaves when it ends: when it returns, no code
    remains; when it raises, the runtime has finished and the exception
    is the fatal error of the failing command, or [StopIteration] from a
    runtime that had finished before.  Either way the source is
    untouched and the history has only grown at its end. *)
Theorem run_all_ends_empty_or_finished (fuel : nat) (i : Interpreter) (o : Outcome) :
  run_all power_other external fuel i = Some o →
  source (interpreter_after o) = source i
  ∧ history i `prefix_of` history (interpreter_after o)
  ∧ match o with
    | Done i' => remaining_code i' = []
    | Failed e i' =>
        runtime i' = Finished ∧ (e = Plain StopIteration ∨ ∃ ie, e = Fatal ie)
    end.
Proof. apply run_all_outcome. Qed.

Lemma straight_line_run code : ∀ i,
  remaining_code i = code → straight_line code →
  ∃ o, run_all power_other external (length code) i = Some o
       ∧ history (interpreter_after o) ++ remaining_code (interpreter_after o)
         = history i ++ code.
Proof.
  induction code as [|[command args] rest IH]; intros i Hcode Hplain.
  - exists (Done i). simpl. by rewrite Hcode.
  - apply Forall_cons in Hplain as [[Hex Hrun] Hplain]. simpl in Hex, Hrun.
    cbn [length]. rewrite (run_all_cons _ _ _ _ Hcode), (run_once_head _ _ _ _ Hcode).
    destruct (runtime i) as [state|].
    + destruct (dispatch power_other external command args state)
        as [changes state'|e state'] eqn:Hd.
      * apply dispatch_no_change in Hd as ->; [|done..].
        destruct (IH (mkInterpreter (source i) rest (Suspended state')
                        (history i ++ [(command, args)]) (Some state'))
                    eq_refl Hplain) as (o & Ho & Hh).
        exists o. split; [done|]. rewrite Hh. simpl. by rewrite <- app_assoc.
      * eexists. split; [done|]. simpl. by rewrite <- app_assoc.
    + eexists. split; [done|]. simpl. by rewrite <- app_assoc.
Qed.

(** X11.  Code without [execute] and [run] instructions is run from
    first to last and never grows: [run_all] ends within as many steps
    as there are instructions, and the history then followed by the
    code that remains is the history before followed by the code.  When
    it returns, the history is the old history and then all of the
    code. *)
Theorem straight_line_code_runs_in_order (i : Interpreter) :
  straight_line (remaining_code i) →
  ∃ o, run_all power_other external (length (remaining_code i)) i = Some o
       ∧ history (interpreter_after o) ++ remaining_code (interpreter_after o)
         = history i ++ remaining_code i
       ∧ ∀ i', o = Done i' → history i' = history i ++ remaining_code i.
Proof.
  intros Hplain.
  destruct (straight_line_run (remaining_code i) i eq_refl Hplain) as (o & Ho & Hh).
  exists o. split; [done|]. split; [done|]. intros i' ->.
  apply run_all_outcome in Ho as (_ & _ & Ho). simpl in *.
  by rewrite Ho, app_nil_r in Hh.
Qed.

(** X12.  [run_all] need not end: an [execute] instruction whose text
    parses to that same instruction first puts itself back in front of
    the code each time it runs. *)
Theorem execute_can_run_forever (i : Interpreter) (state : RuntimeState)
    (args : string) (l rest : list Instruction) :
  runtime i = Suspended state →
  parse_logos (execute_text args (clipboard state)) = Some (("execute", args) :: l) →
  remaining_code i = ("execute", args) :: rest →
  ∀ fuel, run_all power_other external fuel i = None.
Proof.
  intros Hrun Hparse Hcode fuel. revert i Hrun Hcode.
  induction fuel as [|fuel IH]; intros i Hrun Hcode.
  - simpl. by rewrite Hcode.
  - rewrite (run_all_cons _ _ _ _ Hcode), (run_once_head _ _ _ _ Hcode), Hrun.
    change (dispatch power_other external "execute" args state)
      with (execute args state).
    unfold execute. rewrite Hparse. by apply IH.
Qed.

(** X17.  [execute] of one word fails unless the clipboard supplies
    arguments: a space is put after the word, so when the clipboard is
    empty or starts with a line break the text does not parse, and the
    command raises with the state as it was. *)
Theorem execute_of_one_word_needs_the_clipboard (args : string) (state : RuntimeState) :
  args ≠ EmptyString →
  string_forall (λ c, negb (is_whitespace c)) args = true →
  stops (λ c, negb (is_line_break c)) (clipboard state) = true →
  dispatch power_other external "execute" args state = Raises UnexpectedInput state.
Proof.
  intros Hne Hword Hclip.
  change (dispatch power_other external "execute" args state)
    with (execute args state).
  unfold execute, execute_text.
  rewrite ends_with_space_word, bool_decide_eq_false_2 by done. simpl.
  rewrite app_assoc_string.
  pose proof (parse_logos_lone_space EmptyString [] args (clipboard state)
                eq_refl (Forall_nil_2 _) Hne Hword Hclip) as Hparse.
  simpl join_lines in Hparse. rewrite !app_empty_l in Hparse.
  by rewrite Hparse.
Qed.

End RuntimeExtras.

(** * The Editor's text functions *)

Lemma substring_0_app a b : String.substring 0 (String.length a) (a +:+ b) = a.
Proof. induction a as [|c a IH]; [by destruct b|]. rewrite app_String. simpl. by rewrite IH. Qed.

Lemma substring_app_drop a b m :
  String.substring (String.length a) m (a +:+ b) = String.substring 0 m b.
Proof. induction a as [|c a IH]; [done|]. by rewrite app_String. Qed.

Lemma substring_0_all s : String.substring 0 (String.length s) s = s.
Proof. induction s as [|c s IH]; [done|]. simpl. by rewrite IH. Qed.

Lemma substring_none s : ∀ n, String.substring n 0 s = EmptyString.
Proof. induction s as [|c s IH]; intros [|n]; simpl; done. Qed.

Lemma length_snoc x c : String.length (x +:+ String c EmptyString) = S (String.length x).
Proof. rewrite length_app_string. simpl. lia. Qed.

Lemma slice_m1_snoc x c : slice_m1 (x +:+ String c EmptyString) = x.
Proof.
  unfold slice_m1. rewrite length_snoc. simpl. rewrite Nat.sub_0_r.
  apply substring_0_app.
Qed.

Lemma endswith_snoc x c d :
  endswith (x +:+ String c EmptyString) (String d EmptyString) = bool_decide (c = d).
Proof.
  unfold endswith. rewrite length_snoc. simpl. rewrite Nat.sub_0_r.
  rewrite substring_app_drop. simpl. apply bool_decide_ext. naive_solver.
Qed.

Lemma endswith_empty s : endswith s EmptyString = true.
Proof.
  unfold endswith. simpl. rewrite substring_none. by rewrite bool_decide_eq_true_2.
Qed.

Lemma string_snoc_inv s : s = EmptyString ∨ ∃ x c, s = x +:+ String c EmptyString.
Proof.
  induction s as [|c s IH]; [by left|]. right.
  destruct IH as [->|(x & d & ->)].
  - by exists EmptyString, c.
  - exists (String c x), d. by rewrite app_String.
Qed.

Lemma string_snoc_ind (P : string → Prop) :
  P EmptyString → (∀ x c, P x → P (x +:+ String c EmptyString)) → ∀ s, P s.
Proof.
  intros Hnil Hsnoc s.
  remember (String.length s) as n eqn:Hn. revert s Hn.
  induction n as [|n IH]; intros s Hn.
  - destruct s; [done|discriminate].
  - destruct (string_snoc_inv s) as [->|(x & c & ->)]; [done|].
    apply Hsnoc, IH. rewrite length_snoc in Hn. lia.
Qed.

(** ** [strip] *)

Lemma rstrip_by_keep p x c : p c = false →
  rstrip_by p (x +:+ String c EmptyString) = x +:+ String c EmptyString.
Proof.
  intros Hc. induction x as [|a x IH]; simpl; [by rewrite Hc|].
  rewrite app_String. simpl. rewrite IH.
  by destruct (x +:+ String c EmptyString) eqn:E; [destruct x; discriminate|].
Qed.

Lemma rstrip_by_app p s w :
  string_forall p w = true → rstrip_by p (s +:+ w) = rstrip_by p s.
Proof.
  intros Hw. induction s as [|a s IH].
  - rewrite app_empty_l. induction w as [|c w IHw]; [done|].
    simpl in *. apply andb_prop in Hw as [Hc Hw]. rewrite IHw by done. by rewrite Hc.
  - rewrite app_String. simpl. by rewrite IH.
Qed.

Lemma strip_by_core p w1 core w2 c x d :
  string_forall p w1 = true → string_forall p w2 = true →
  core = String c x +:+ String d EmptyString → p c = false → p d = false →
  strip_by p (w1 +:+ core +:+ w2) = core.
Proof.
  intros Hw1 Hw2 -> Hc Hd. unfold strip_by, lstrip_by.
  rewrite (span_exact p w1) by (by rewrite ?app_String; simpl; rewrite ?Hc).
  cbn [snd]. rewrite rstrip_by_app by done.
  by rewrite (rstrip_by_keep p (String c x) d).
Qed.

Lemma quotemark_no_space : is_whitespace quotemark = false.
Proof. reflexivity. Qed.

(** A quoted text, with white space around it, as the functions see it
    after [strip]. *)
Lemma strip_quoted w1 t w2 :
  string_forall is_whitespace w1 = true → string_forall is_whitespace w2 = true →
  strip (w1 +:+ (quote +:+ t +:+ quote) +:+ w2) = String quotemark (t +:+ quote).
Proof.
  intros Hw1 Hw2. unfold strip.
  by rewrite (strip_by_core _ w1 (quote +:+ t +:+ quote) w2 quotemark t quotemark).
Qed.

Lemma startswith_quoted t : startswith (String quotemark t) quote = true.
Proof. unfold startswith, quote. simpl. by destruct t. Qed.

Lemma endswith_quoted t : endswith (String quotemark (t +:+ quote)) quote = true.
Proof.
  change (String quotemark (t +:+ quote)) with (String quotemark t +:+ quote).
  unfold quote. by rewrite endswith_snoc, bool_decide_eq_true_2.
Qed.

Lemma slice_quoted t : slice_1_m1 (String quotemark (t +:+ quote)) = t.
Proof.
  unfold slice_1_m1. simpl. rewrite length_app_string. simpl.
  replace (String.length t + 1 - 1) with (String.length t) by lia.
  apply substring_0_app.
Qed.

Lemma quoted_not_named t (names : list string) :
  Forall (λ name, name = EmptyString ∨ name = quote
                  ∨ ∃ c s, name = String c s ∧ c ≠ quotemark) names →
  String quotemark (t +:+ quote) ∉ names.
Proof.
  intros Hnames Hin. eapply Forall_forall in Hnames; [|done].
  destruct Hnames as [E|[E|(c & s & E & Hc)]].
  - discriminate.
  - injection E as E. by destruct t.
  - injection E as E1 E2. by apply Hc.
Qed.

Ltac not_named :=
  apply quoted_not_named;
  repeat (apply Forall_cons; split;
          [first [ by left
                 | by right; left
                 | right; right; eexists _, _; split;
                   [reflexivity|unfold quotemark; discriminate] ]|]);
  by apply Forall_nil.

(** X18.  [write] with a quoted text, white space around it or not, puts
    the text between the quotation marks at the end of the buffer. *)
Theorem write_appends_the_quoted_text (w1 t w2 buffer : string) :
  string_forall is_whitespace w1 = true → string_forall is_whitespace w2 = true →
  _write (w1 +:+ (quote +:+ t +:+ quote) +:+ w2) buffer = Ok (buffer +:+ t).
Proof.
  intros Hw1 Hw2. unfold _write. rewrite strip_quoted by done.
  rewrite bool_decide_eq_false_2 by not_named.
  rewrite bool_decide_eq_false_2 by not_named.
  by rewrite startswith_quoted, endswith_quoted, slice_quoted.
Qed.

(** X19.  [extract_replacement] reads a quoted text, white space around
    it or not, as the text between the quotation marks. *)
Theorem extract_replacement_of_quoted_text (w1 t w2 : string) :
  string_forall is_whitespace w1 = true → string_forall is_whitespace w2 = true →
  extract_replacement (w1 +:+ (quote +:+ t +:+ quote) +:+ w2) = Some t.
Proof.
  intros Hw1 Hw2. unfold extract_replacement. rewrite strip_quoted by done.
  rewrite bool_decide_eq_false_2 by not_named.
  rewrite bool_decide_eq_false_2 by not_named.
  replace (String.length (String quotemark (t +:+ quote)) <? 2) with false.
  - by rewrite startswith_quoted, endswith_quoted, slice_quoted.
  - symmetry. apply Nat.ltb_ge. simpl. rewrite length_app_string. simpl. lia.
Qed.

(** ** [backspace] *)

Lemma slice_m1_prefix s : ∃ t, s = slice_m1 s +:+ t.
Proof.
  destruct (string_snoc_inv s) as [->|(x & c & ->)]; [by exists EmptyString|].
  rewrite slice_m1_snoc. by eexists.
Qed.

Lemma backspace_to_unit_prefix fuel unit : ∀ buffer,
  ∃ t, buffer = backspace_to_unit fuel unit buffer +:+ t.
Proof.
  induction fuel as [|fuel IH]; intros buffer; simpl.
  - exists EmptyString. by rewrite app_empty_r.
  - destruct (_ && _).
    + destruct (IH (slice_m1 buffer)) as [t Ht].
      destruct (slice_m1_prefix buffer) as [t' Ht'].
      exists (t +:+ t'). by rewrite <- app_assoc_string, <- Ht.
    + exists EmptyString. by rewrite app_empty_r.
Qed.

Lemma backspace_unit_prefix unit buffer : ∃ t, buffer = backspace_unit unit buffer +:+ t.
Proof.
  unfold backspace_unit.
  destruct (backspace_to_unit_prefix (String.length buffer) unit buffer) as [t Ht].
  destruct (slice_m1_prefix (backspace_to_unit (String.length buffer) unit buffer))
    as [t' Ht'].
  exists (t' +:+ t). by rewrite <- app_assoc_string, <- Ht'.
Qed.

Lemma iter_backspace_unit_prefix n unit buffer :
  ∃ t, buffer = Nat.iter n (backspace_unit unit) buffer +:+ t.
Proof.
  induction n as [|n [t Ht]]; simpl.
  - exists EmptyString. by rewrite app_empty_r.
  - destruct (backspace_unit_prefix unit (Nat.iter n (backspace_unit unit) buffer))
      as [t' Ht'].
    exists (t' +:+ t). by rewrite <- app_assoc_string, <- Ht'.
Qed.

Lemma backspace_result args buffer b' :
  _backspace args buffer = Ok b' →
  ∃ n unit, b' = Nat.iter n (backspace_unit unit) buffer.
Proof.
  unfold _backspace. destruct (str_split args " ") as [split_args|]; [|done].
  simpl. destruct (if forallb _ split_args then _ else _) as [[n unit]|]; [|done].
  simpl. intros [= <-]. by eexists _, _.
Qed.

(** X20.  [backspace] only takes from the end: whatever its arguments,
    when it returns, the new buffer is a prefix of the old one. *)
Theorem backspace_leaves_a_prefix (args buffer b' : string) :
  _backspace args buffer = Ok b' → ∃ t, buffer = b' +:+ t.
Proof.
  intros (n & unit & ->)%backspace_result. apply iter_backspace_unit_prefix.
Qed.


Lemma prefix_char d c s :
  String.prefix (String d EmptyString) (String c s) = bool_decide (d = c).
Proof.
  simpl. destruct (ascii_dec d c) as [->|Hne].
  - rewrite bool_decide_eq_true_2 by done. by destruct s.
  - by rewrite bool_decide_eq_false_2.
Qed.

(** Splitting at a one-character separator. *)
Lemma split_from_char d part c s :
  split_from (String d EmptyString) 0 part (String c s) =
  if bool_decide (d = c) then part :: split_from (String d EmptyString) 0 EmptyString s
  else split_from (String d EmptyString) 0 (part +:+ String c EmptyString) s.
Proof. cbn [split_from]. by rewrite prefix_char. Qed.

Lemma split_from_no_separator d s : ∀ part,
  string_forall (λ c, negb (bool_decide (c = d))) s = true →
  split_from (String d EmptyString) 0 part s = [part +:+ s].
Proof.
  induction s as [|c s IH]; intros part Hs.
  - simpl. by rewrite app_empty_r.
  - simpl in Hs. apply andb_prop in Hs as [Hc Hs].
    apply negb_true_iff, bool_decide_eq_false in Hc.
    rewrite split_from_char, bool_decide_eq_false_2 by done.
    rewrite IH by done. by rewrite app_assoc_string.
Qed.

Lemma split_from_separators d s :
  string_forall (λ c, bool_decide (c = d)) s = true →
  forallb (λ part, bool_decide (part = EmptyString))
    (split_from (String d EmptyString) 0 EmptyString s) = true.
Proof.
  induction s as [|c s IH]; intros Hs; [done|].
  simpl in Hs. apply andb_prop in Hs as [Hc Hs]. apply bool_decide_eq_true in Hc.
  rewrite split_from_char, bool_decide_eq_true_2 by done. simpl. by apply IH.
Qed.

Lemma backspace_to_unit_characters fuel buffer :
  backspace_to_unit fuel [EmptyString] buffer = buffer.
Proof.
  destruct fuel as [|fuel]; [done|]. simpl.
  by rewrite endswith_empty, andb_false_r.
Qed.

Lemma backspace_unit_characters buffer :
  backspace_unit [EmptyString] buffer = slice_m1 buffer.
Proof. unfold backspace_unit. by rewrite backspace_to_unit_characters. Qed.

Lemma substring_0_0 s : String.substring 0 0 s = EmptyString.
Proof. by destruct s. Qed.

Lemma length_substring_0 s : ∀ k,
  String.length (String.substring 0 k s) = Nat.min k (String.length s).
Proof.
  induction s as [|c s IH]; intros [|k]; simpl; try done. by rewrite IH.
Qed.

Lemma substring_0_twice s : ∀ j k,
  String.substring 0 j (String.substring 0 k s) = String.substring 0 (Nat.min j k) s.
Proof.
  induction s as [|c s IH]; intros [|j] [|k]; simpl; try done. by rewrite IH.
Qed.

Lemma iter_slice_m1 n buffer :
  Nat.iter n slice_m1 buffer
  = String.substring 0 (String.length buffer - n) buffer.
Proof.
  induction n as [|n IH]; simpl.
  - by rewrite Nat.sub_0_r, substring_0_all.
  - rewrite IH. unfold slice_m1. rewrite length_substring_0, substring_0_twice.
    f_equal. lia.
Qed.

Lemma iter_ext {A} (f g : A → A) n x : (∀ y, f y = g y) → Nat.iter n f x = Nat.iter n g x.
Proof. intros Hfg. induction n as [|n IH]; simpl; [done|]. by rewrite IH, Hfg. Qed.

Lemma lookup_Editor_units key unit :
  lookup_item key Editor_units = Some unit →
  key = "characters" ∨ key = "words" ∨ key = "lines".
Proof.
  unfold Editor_units. simpl. repeat case_bool_decide; subst; try done; eauto.
Qed.

Lemma backspace_number args buffer n :
  string_forall (λ c, negb (bool_decide (c = " "%char))) args = true →
  int args = Ok n →
  _backspace args buffer
  = Ok (String.substring 0 (String.length buffer - Z.to_nat n) buffer).
Proof.
  intros Hargs Hint.
  assert (args ≠ EmptyString) as Hne by (by intros ->).
  assert (lookup_item args Editor_units = None) as Hunit.
  { destruct (lookup_item args Editor_units) as [unit|] eqn:Hunit; [|done].
    apply lookup_Editor_units in Hunit as [-> | [-> | ->]]; vm_compute in Hint; done. }
  unfold _backspace, str_split.
  rewrite bool_decide_eq_false_2 by done. unfold mbind, result_bind.
  rewrite split_from_no_separator, app_empty_l by done.
  cbn [forallb]. rewrite bool_decide_eq_false_2 by done. cbn [andb].
  rewrite Hunit, Hint.
  change (default [] (lookup_item "characters" Editor_units)) with [EmptyString].
  rewrite (iter_ext _ slice_m1) by apply backspace_unit_characters.
  by rewrite iter_slice_m1.
Qed.

Lemma backspace_default args buffer :
  string_forall (λ c, bool_decide (c = " "%char)) args = true →
  _backspace args buffer = Ok (slice_m1 buffer).
Proof.
  intros Hargs. unfold _backspace, str_split.
  rewrite bool_decide_eq_false_2 by done. unfold mbind, result_bind.
  rewrite split_from_separators by done.
  change (default [] (lookup_item "characters" Editor_units)) with [EmptyString].
  change (Z.to_nat 1) with 1. cbn [Nat.iter nat_rect].
  by rewrite backspace_unit_characters.
Qed.

(** X21.  [backspace] by characters: with no argument, or spaces only,
    it takes the last character off; with a number it takes that many
    characters off the end, all of them when the buffer has fewer and
    none when the number is not positive. *)
Theorem backspace_takes_characters_off_the_end (args buffer : string) (n : Z) :
  string_forall (λ c, negb (bool_decide (c = " "%char))) args = true →
  int args = Ok n →
  _backspace args buffer
  = Ok (String.substring 0 (String.length buffer - Z.to_nat n) buffer)
  ∧ ∀ spaces, string_forall (λ c, bool_decide (c = " "%char)) spaces = true →
      _backspace spaces buffer
      = Ok (String.substring 0 (String.length buffer - 1) buffer).
Proof.
  intros Hargs Hint. split; [by apply backspace_number|].
  intros spaces Hspaces. by rewrite backspace_default.
Qed.

Lemma existsb_endswith_snoc x c unit :
  Forall (λ u, ∃ d, u = String d EmptyString) unit →
  existsb (endswith (x +:+ String c EmptyString)) unit
  = bool_decide (String c EmptyString ∈ unit).
Proof.
  induction 1 as [|u unit Hu _ IH]; cbn [existsb].
  - symmetry. apply bool_decide_eq_false_2. by intros ?%elem_of_nil.
  - destruct Hu as [d ->]. rewrite endswith_snoc, IH.
    destruct (decide (c = d)) as [->|Hne].
    + rewrite (bool_decide_eq_true_2 (d = d)) by done. cbn [orb].
      symmetry. apply bool_decide_eq_true_2. by left.
    + rewrite (bool_decide_eq_false_2 (c = d)) by done. cbn [orb].
      apply bool_decide_ext. rewrite elem_of_cons.
      split; [by right|]. intros [Heq|Hin]; [by simplify_eq|done].
Qed.

Lemma string_forall_app p a b :
  string_forall p (a +:+ b) = string_forall p a && string_forall p b.
Proof.
  induction a as [|c a IH]; [done|]. rewrite app_String. simpl.
  by rewrite IH, andb_assoc.
Qed.

Lemma app_snoc_ne x c : x +:+ String c EmptyString ≠ EmptyString.
Proof. by destruct x. Qed.

(** Back to the last separator: the characters after it go. *)
Lemma backspace_to_unit_last unit buffer d w : ∀ fuel,
  Forall (λ u, ∃ d, u = String d EmptyString) unit →
  String d EmptyString ∈ unit →
  string_forall (λ c, negb (bool_decide (String c EmptyString ∈ unit))) w = true →
  String.length w ≤ fuel →
  backspace_to_unit fuel unit (buffer +:+ String d w) = buffer +:+ String d EmptyString.
Proof.
  intros fuel Hunit Hd. revert fuel.
  induction w as [|w c IH] using string_snoc_ind; intros fuel Hw Hfuel.
  - destruct fuel as [|fuel]; [done|]. cbn [backspace_to_unit].
    rewrite existsb_endswith_snoc by done.
    rewrite (bool_decide_eq_true_2 (String d EmptyString ∈ unit)) by done.
    cbn [negb]. by rewrite andb_false_r.
  - assert (string_forall (λ c, negb (bool_decide (String c EmptyString ∈ unit))) w = true
            ∧ String c EmptyString ∉ unit) as [Hw' Hc].
    { rewrite string_forall_app in Hw. apply andb_prop in Hw as [Hw' Hc].
      split; [done|]. simpl in Hc. rewrite andb_true_r in Hc.
      by apply negb_true_iff, bool_decide_eq_false in Hc. }
    rewrite length_snoc in Hfuel. destruct fuel as [|fuel]; [lia|].
    replace (buffer +:+ String d (w +:+ String c EmptyString))
      with ((buffer +:+ String d w) +:+ String c EmptyString)
      by (by rewrite app_assoc_string, app_String).
    cbn [backspace_to_unit]. rewrite existsb_endswith_snoc by done.
    rewrite (bool_decide_eq_false_2 (String c EmptyString ∈ unit)) by done.
    rewrite (bool_decide_eq_false_2 (_ = EmptyString)) by apply app_snoc_ne.
    cbn [negb andb]. rewrite slice_m1_snoc. apply IH; [done|lia].
Qed.

Lemma backspace_unit_last unit buffer d w :
  Forall (λ u, ∃ d, u = String d EmptyString) unit →
  String d EmptyString ∈ unit →
  string_forall (λ c, negb (bool_decide (String c EmptyString ∈ unit))) w = true →
  backspace_unit unit (buffer +:+ String d w) = buffer.
Proof.
  intros Hunit Hd Hw. unfold backspace_unit.
  rewrite backspace_to_unit_last; [by rewrite slice_m1_snoc|done..|].
  rewrite length_app_string. simpl. lia.
Qed.

(** X22.  [backspace words] and [backspace lines] take the last word or
    line off together with the separator before it: when the buffer ends
    with a separator of the unit (a space or a line feed for words, a
    line feed for lines) and a text without separators, what is left is
    the buffer before that separator. *)
Theorem backspace_takes_the_last_unit_off (unit_name buffer w : string) (d : ascii)
    (unit : list string) :
  unit_name = "words" ∨ unit_name = "lines" →
  lookup_item unit_name Editor_units = Some unit →
  String d EmptyString ∈ unit →
  string_forall (λ c, negb (bool_decide (String c EmptyString ∈ unit))) w = true →
  _backspace unit_name (buffer +:+ String d w) = Ok buffer.
Proof.
  intros Hname Hunit Hd Hw.
  assert (Forall (λ u, ∃ d, u = String d EmptyString) unit) as Hsingle.
  { destruct Hname as [-> | ->]; vm_compute in Hunit; simplify_eq;
      repeat (apply Forall_cons; split; [by eexists|]); by apply Forall_nil. }
  assert (_backspace unit_name (buffer +:+ String d w)
          = Ok (Nat.iter 1 (backspace_unit unit) (buffer +:+ String d w))) as ->.
  { destruct Hname as [-> | ->]; vm_compute in Hunit; simplify_eq; reflexivity. }
  simpl. by rewrite backspace_unit_last.
Qed.


(** * The further properties at work *)

Lemma cut_then_paste_restores_witness :
  open_programs editor_state !! current_program_name editor_state
    = Some (mkProgram Editor "abc")
  ∧ ∃ state1,
      dispatch no_power no_external "cut" "all" editor_state = Returns None state1
      ∧ current_buffer state1 = Ok EmptyString
      ∧ clipboard state1 = "abc"
      ∧ dispatch no_power no_external "paste" EmptyString state1
        = Returns None (with_clipboard editor_state "abc").
Proof.
  assert (open_programs editor_state !! current_program_name editor_state
          = Some (mkProgram Editor "abc")) as Hopen by (vm_compute; reflexivity).
  split; [exact Hopen|].
  exact (cut_then_paste_restores no_power no_external "all" editor_state
           (mkProgram Editor "abc") (or_intror eq_refl) Hopen).
Defined.

Lemma cut_then_append_restores_witness :
  open_programs editor_state !! current_program_name editor_state
    = Some (mkProgram Editor "abc")
  ∧ ∃ state1,
      dispatch no_power no_external "cut" EmptyString editor_state = Returns None state1
      ∧ dispatch no_power no_external "append" "the clipboard" state1
        = Returns None (with_clipboard editor_state EmptyString).
Proof.
  assert (open_programs editor_state !! current_program_name editor_state
          = Some (mkProgram Editor "abc")) as Hopen by (vm_compute; reflexivity).
  split; [exact Hopen|].
  exact (cut_then_append_restores no_power no_external "the clipboard" editor_state
           "abc" (or_introl eq_refl) Hopen).
Defined.

Lemma dangling_name_fails_witness :
  open_programs dangling_state !! current_program_name dangling_state = None
  ∧ ∃ e, dispatch no_power no_external "write" "x" dangling_state
         = Raises e dangling_state
         ∧ (e = AssertionError ∨ e = KeyError (current_program_name dangling_state)).
Proof.
  assert (open_programs dangling_state !! current_program_name dangling_state = None)
    as Hnone by (vm_compute; reflexivity).
  split; [exact Hnone|].
  apply (dangling_name_fails no_power no_external "write" "x" dangling_state Hnone);
    discriminate.
Defined.

Lemma commands_keep_library_and_classes_witness :
  dispatch no_power no_external "Calculator" "1+1" desktop_state
    = Returns None calculator_opened
  ∧ library calculator_opened = library desktop_state
  ∧ ∀ k p, open_programs desktop_state !! k = Some p →
      ∃ b, open_programs calculator_opened !! k = Some (mkProgram (program_class p) b).
Proof.
  assert (dispatch no_power no_external "Calculator" "1+1" desktop_state
          = Returns None calculator_opened) as Hd by (vm_compute; reflexivity).
  split; [exact Hd|].
  exact (commands_keep_library_and_classes no_power no_external _ _ _ _ _ Hd).
Defined.

Lemma only_execute_and_run_change_the_code_witness :
  let change : StreamTransform := λ current_code, take 1 [("xy", EmptyString)] ++ current_code in
  dispatch no_power no_external "execute" EmptyString editor_state
    = Returns (Some change) editor_state
  ∧ (("execute" = "execute" ∧ prepends_at_most_one change ∧ editor_state = editor_state)
     ∨ ("execute" = "run" ∧ replaces_all change
        ∧ ∃ b, open_programs editor_state !! current_program_name editor_state
               = Some (mkProgram Terminal b))).
Proof.
  intros change.
  assert (dispatch no_power no_external "execute" EmptyString editor_state
          = Returns (Some change) editor_state) as Hd by reflexivity.
  split; [exact Hd|].
  exact (only_execute_and_run_change_the_code no_power no_external _ _ _ _ _ Hd).
Defined.

Lemma commands_touch_the_current_program_only_witness :
  dispatch no_power no_external "cut" EmptyString editor_state
    = Returns None
        (mkRuntimeState
           (<["Editor" := mkProgram Editor EmptyString]> (open_programs editor_state))
           "Editor" STANDARD_LIBRARY "abc")
  ∧ "Desktop" ≠ current_program_name editor_state
  ∧ open_programs editor_state !! "Desktop" = Some (mkProgram Desktop EmptyString)
  ∧ open_programs
      (mkRuntimeState
         (<["Editor" := mkProgram Editor EmptyString]> (open_programs editor_state))
         "Editor" STANDARD_LIBRARY "abc") !! "Desktop"
    = Some (mkProgram Desktop EmptyString).
Proof.
  assert (dispatch no_power no_external "cut" EmptyString editor_state
          = Returns None
              (mkRuntimeState
                 (<["Editor" := mkProgram Editor EmptyString]>
                    (open_programs editor_state))
                 "Editor" STANDARD_LIBRARY "abc")) as Hd by (vm_compute; reflexivity).
  assert ("Desktop" ≠ current_program_name editor_state) as Hne by discriminate.
  assert (open_programs editor_state !! "Desktop" = Some (mkProgram Desktop EmptyString))
    as Hopen by (vm_compute; reflexivity).
  split; [exact Hd|]. split; [exact Hne|]. split; [exact Hopen|].
  exact (commands_touch_the_current_program_only no_power no_external
           _ _ _ _ _ _ _ Hd Hne Hopen).
Defined.

Lemma clipboard_written_by_cut_copy_append_only_witness :
  dispatch no_power no_external "paste" EmptyString editor_state
    = Returns None
        (with_open_programs editor_state
           (<["Editor" := mkProgram Editor "xy"]> (open_programs editor_state)))
  ∧ clipboard
      (with_open_programs editor_state
         (<["Editor" := mkProgram Editor "xy"]> (open_programs editor_state)))
    = clipboard editor_state.
Proof.
  assert (dispatch no_power no_external "paste" EmptyString editor_state
          = Returns None
              (with_open_programs editor_state
                 (<["Editor" := mkProgram Editor "xy"]> (open_programs editor_state))))
    as Hd by (vm_compute; reflexivity).
  split; [exact Hd|].
  apply (clipboard_written_by_cut_copy_append_only no_power no_external
           _ _ _ _ _ Hd); discriminate.
Defined.

Lemma current_program_changes_three_ways_witness :
  dispatch no_power no_external "Calculator" "1+1" desktop_state
    = Returns None calculator_opened
  ∧ (current_program_name calculator_opened = current_program_name desktop_state
     ∨ ("Calculator" = "minimise" ∧ current_program_name calculator_opened = "Desktop")
     ∨ ("Calculator" = "switch" ∧ current_program_name calculator_opened = "1+1")
     ∨ (current_program_name calculator_opened = "Calculator"
        ∧ open_programs desktop_state !! "Calculator" = None
        ∧ is_Some (open_programs calculator_opened !! "Calculator"))).
Proof.
  assert (dispatch no_power no_external "Calculator" "1+1" desktop_state
          = Returns None calculator_opened) as Hd by (vm_compute; reflexivity).
  split; [exact Hd|].
  exact (current_program_changes_three_ways no_power no_external _ _ _ _ _ Hd).
Defined.

Lemma run_all_ends_empty_or_finished_witness :
  ∃ o, run_all no_power no_external 3 plain_interpreter = Some o
       ∧ source (interpreter_after o) = source plain_interpreter
       ∧ history plain_interpreter `prefix_of` history (interpreter_after o)
       ∧ match o with
         | Done i' => remaining_code i' = []
         | Failed e i' =>
             runtime i' = Finished ∧ (e = Plain StopIteration ∨ ∃ ie, e = Fatal ie)
         end.
Proof.
  destruct (run_all no_power no_external 3 plain_interpreter) as [o|] eqn:Hrun;
    [|vm_compute in Hrun; discriminate].
  exists o. split; [reflexivity|].
  exact (run_all_ends_empty_or_finished no_power no_external 3 plain_interpreter o Hrun).
Defined.

Lemma straight_line_code_runs_in_order_witness :
  straight_line (remaining_code plain_interpreter)
  ∧ ∃ o, run_all no_power no_external (length (remaining_code plain_interpreter))
           plain_interpreter = Some o
         ∧ history (interpreter_after o) ++ remaining_code (interpreter_after o)
           = history plain_interpreter ++ remaining_code plain_interpreter
         ∧ ∀ i', o = Done i' →
             history i' = history plain_interpreter ++ remaining_code plain_interpreter.
Proof.
  assert (straight_line (remaining_code plain_interpreter)) as Hplain
    by (repeat constructor; discriminate).
  split; [exact Hplain|].
  exact (straight_line_code_runs_in_order no_power no_external plain_interpreter Hplain).
Defined.

Lemma execute_can_run_forever_witness :
  parse_logos (execute_text EmptyString "execute") = Some [("execute", EmptyString)]
  ∧ run_all no_power no_external 1000 looping_interpreter = None.
Proof.
  assert (parse_logos (execute_text EmptyString "execute")
          = Some [("execute", EmptyString)]) as Hparse by reflexivity.
  split; [exact Hparse|].
  exact (execute_can_run_forever no_power no_external looping_interpreter
           (with_clipboard editor_state "execute") EmptyString []
           [("cut", EmptyString)] eq_refl Hparse eq_refl 1000).
Defined.

Lemma execute_of_one_word_needs_the_clipboard_witness :
  let state := with_clipboard editor_state EmptyString in
  dispatch no_power no_external "execute" "cut" state = Raises UnexpectedInput state.
Proof.
  intros state.
  apply (execute_of_one_word_needs_the_clipboard no_power no_external "cut" state);
    [discriminate|reflexivity|reflexivity].
Defined.

Lemma program_text_parses_witness :
  is_newlines nl = true
  ∧ Forall (λ line, valid_line line = true) example_lines
  ∧ parse_logos (program_text nl example_lines (Some ("cut", EmptyString)))
    = Some [("Editor", EmptyString); ("write", "a  b"); ("cut", EmptyString)].
Proof.
  assert (Forall (λ line, valid_line line = true) example_lines) as Hlines
    by (repeat constructor).
  split; [reflexivity|]. split; [exact Hlines|].
  apply (program_text_parses nl example_lines (Some ("cut", EmptyString)) eq_refl Hlines).
  intros i [= <-]. reflexivity.
Defined.

Lemma indented_line_is_an_error_witness :
  Forall (λ line, valid_line line = true) example_lines
  ∧ parse_logos (nl +:+ join_lines example_lines +:+ String " " "cut") = None.
Proof.
  assert (Forall (λ line, valid_line line = true) example_lines) as Hlines
    by (repeat constructor).
  split; [exact Hlines|].
  exact (indented_line_is_an_error nl example_lines " " "cut" eq_refl Hlines
           eq_refl eq_refl).
Defined.

Lemma lone_space_after_name_is_an_error_witness :
  Forall (λ line, valid_line line = true) example_lines
  ∧ parse_logos (nl +:+ join_lines example_lines +:+ "cut" +:+ " " +:+ nl) = None
  ∧ parse_logos (nl +:+ join_lines example_lines +:+ "cut" +:+ "  ")
    = Some (example_lines.*1 ++ [("cut", " ")]).
Proof.
  assert (Forall (λ line, valid_line line = true) example_lines) as Hlines
    by (repeat constructor).
  split; [exact Hlines|].
  apply (lone_space_after_name_is_an_error nl example_lines "cut" nl eq_refl Hlines);
    [discriminate|reflexivity|reflexivity].
Defined.

Lemma write_appends_the_quoted_text_witness :
  _write (" " +:+ (quote +:+ "a b" +:+ quote) +:+ "  ") "abc" = Ok ("abc" +:+ "a b").
Proof.
  exact (write_appends_the_quoted_text " " "a b" "  " "abc" eq_refl eq_refl).
Defined.

Lemma extract_replacement_of_quoted_text_witness :
  extract_replacement (" " +:+ (quote +:+ "a b" +:+ quote) +:+ "  ") = Some "a b".
Proof.
  exact (extract_replacement_of_quoted_text " " "a b" "  " eq_refl eq_refl).
Defined.
